(** * Double-difference relocation core: solver data model

    A shallow embedding of the declarations of [solver.h] (the [DDSystem]
    container and the [Solver] observation store), of the grid classes of
    [nllttt.h] and of the option records of [hypodd.h], together with the
    properties the design document states about them.

    Conventions.
    - [unsigned] is a 32-bit machine integer, [int] its signed counterpart
      and [unsigned long long] a 64-bit one; all three are carried by [Z]
      and every arithmetic operation of the source is followed by its
      wrap-around.
    - [double] is carried by [R]: the properties below are statements of
      real arithmetic and say nothing about rounding.
    - [std::unordered_map] is a [gmap], a C array a [list] read with
      stdpp's lookup. *)

From Stdlib Require Import ZArith Reals Lra Lia List String Ascii.
From stdpp Require Import gmap strings pretty list.

Open Scope Z_scope.

(* ===================================================================== *)
(** * Machine integers *)
(* ===================================================================== *)

Definition UINT_BITS : Z := 32.
Definition UINT_MOD : Z := 2 ^ UINT_BITS.
Definition INT_MIN : Z := - 2 ^ (UINT_BITS - 1).
Definition INT_MAX : Z := 2 ^ (UINT_BITS - 1) - 1.
Definition ULLONG_MOD : Z := 2 ^ 64.

(** A value of type [unsigned], [int], [unsigned long long]. *)
Definition is_unsigned (x : Z) : Prop := 0 <= x < UINT_MOD.
Definition is_int (x : Z) : Prop := INT_MIN <= x <= INT_MAX.
Definition is_ull (x : Z) : Prop := 0 <= x < ULLONG_MOD.

(** Conversion of a mathematical integer to [unsigned] and to [int]. *)
Definition to_unsigned (x : Z) : Z := x mod UINT_MOD.
Definition to_int (x : Z) : Z :=
  let u := x mod UINT_MOD in if u <=? INT_MAX then u else u - UINT_MOD.

(** [a + b] and [a * b] on [unsigned] operands. *)
Definition uadd (a b : Z) : Z := to_unsigned (a + b).
Definition umul (a b : Z) : Z := to_unsigned (a * b).

(* ===================================================================== *)
(** * DDSystem *)
(* ===================================================================== *)

(** One element of the array [G] of [double[4]]: the row [(dx, dy, dz, 1)] of an
    (event, phase-station) pair. *)
Record Vec4 : Type := mkVec4 { g0 : R; g1 : R; g2 : R; g3 : R }.

(** Component [k] of a [double[4]]. *)
Definition vec4_get (v : Vec4) (k : nat) : R :=
  match k with
  | O => g0 v
  | 1%nat => g1 v
  | 2%nat => g2 v
  | _ => g3 v
  end.

(** The eight heap arrays a [DDSystem] owns. *)
Inductive DDArray : Type :=
| ArrW | ArrG | ArrM | ArrD | ArrL2NScaler | ArrEv0 | ArrEv1 | ArrPhSta.

(** [new T[n]] leaves its elements indeterminate.  The values found in
    the fresh arrays are an input of the constructor. *)
Record Uninit : Type := mkUninit {
  junk_double : DDArray -> nat -> R;
  junk_vec4 : nat -> Vec4;
  junk_int : DDArray -> nat -> Z;
  junk_unsigned : nat -> Z
}.

(** [new T[n]]: [n] elements, element [i] holding [junk i]. *)
Definition new_array {A : Type} (n : Z) (junk : nat -> A) : list A :=
  map junk (seq 0 (Z.to_nat n)).

Record DDSystem : Type := mkDDSystem {
  nObs : Z;
  nEvts : Z;
  nPhStas : Z;
  nTTconstraints : Z;
  W : list R;
  G : list Vec4;
  m : list R;
  d : list R;
  L2NScaler : list R;
  evByObs0 : list Z;
  evByObs1 : list Z;
  phStaByObs : list Z;
  numColsG : Z;
  numRowsG : Z
}.

(** [DDSystem::DDSystem(_nObs, _nEvts, _nPhStas, _nTTconstraints)].  The
    member initialisers run in declaration order, so [numColsG] and
    [numRowsG] are computed, in [unsigned] arithmetic, before the body
    allocates the arrays. *)
Definition DDSystem_new (u : Uninit) (_nObs _nEvts _nPhStas _nTTconstraints : Z)
  : DDSystem :=
  let numColsG_ := umul _nEvts 4 in
  let numRowsG_ := uadd _nObs _nTTconstraints in
  {| nObs := _nObs;
     nEvts := _nEvts;
     nPhStas := _nPhStas;
     nTTconstraints := _nTTconstraints;
     W := new_array numRowsG_ (junk_double u ArrW);
     G := new_array (umul _nEvts _nPhStas) (junk_vec4 u);
     m := new_array numColsG_ (junk_double u ArrM);
     d := new_array numRowsG_ (junk_double u ArrD);
     L2NScaler := new_array numColsG_ (junk_double u ArrL2NScaler);
     evByObs0 := new_array numRowsG_ (junk_int u ArrEv0);
     evByObs1 := new_array numRowsG_ (junk_int u ArrEv1);
     phStaByObs := new_array numRowsG_ (junk_unsigned u);
     numColsG := numColsG_;
     numRowsG := numRowsG_ |}.

(** The constructor's fourth parameter defaults to [0]. *)
Definition DDSystem_new3 (u : Uninit) (_nObs _nEvts _nPhStas : Z) : DDSystem :=
  DDSystem_new u _nObs _nEvts _nPhStas 0.

(** [evByObs[k]], [k] in [{0, 1}]. *)
Definition evByObs (dd : DDSystem) (k : nat) : list Z :=
  match k with O => evByObs0 dd | _ => evByObs1 dd end.

(** [dd->evByObs[k][r] = v]: the right-hand side is converted to [int]. *)
Definition set_evByObs (dd : DDSystem) (k r : nat) (v : Z) : DDSystem :=
  match k with
  | O =>
      {| nObs := nObs dd; nEvts := nEvts dd; nPhStas := nPhStas dd;
         nTTconstraints := nTTconstraints dd; W := W dd; G := G dd;
         m := m dd; d := d dd; L2NScaler := L2NScaler dd;
         evByObs0 := <[r := to_int v]> (evByObs0 dd);
         evByObs1 := evByObs1 dd; phStaByObs := phStaByObs dd;
         numColsG := numColsG dd; numRowsG := numRowsG dd |}
  | _ =>
      {| nObs := nObs dd; nEvts := nEvts dd; nPhStas := nPhStas dd;
         nTTconstraints := nTTconstraints dd; W := W dd; G := G dd;
         m := m dd; d := d dd; L2NScaler := L2NScaler dd;
         evByObs0 := evByObs0 dd;
         evByObs1 := <[r := to_int v]> (evByObs1 dd);
         phStaByObs := phStaByObs dd;
         numColsG := numColsG dd; numRowsG := numRowsG dd |}
  end.

(* ===================================================================== *)
(** * Solver: the observation store *)
(* ===================================================================== *)

(** [struct Solver::Observation]. *)
Record Observation : Type := mkObservation {
  ev1Idx : Z;
  ev2Idx : Z;
  phStaIdx : Z;
  observedDiffTime : R;
  aPrioriWeight : R;
  isXcorr : bool
}.

(** The record read as the tuple of its members, and back. *)
Definition Observation_fields (o : Observation) : Z * Z * Z * R * R * bool :=
  (ev1Idx o, ev2Idx o, phStaIdx o, observedDiffTime o, aPrioriWeight o, isXcorr o).

Definition Observation_of_fields (t : Z * Z * Z * R * R * bool) : Observation :=
  let '(e1, e2, s, dt, w, x) := t in mkObservation e1 e2 s dt w x.

(** An [Observation] member assigned from an integer expression: the
    three index members are [unsigned]. *)
Definition Observation_set_ev1Idx (o : Observation) (v : Z) : Observation :=
  mkObservation (to_unsigned v) (ev2Idx o) (phStaIdx o)
                (observedDiffTime o) (aPrioriWeight o) (isXcorr o).

Definition Observation_set_ev2Idx (o : Observation) (v : Z) : Observation :=
  mkObservation (ev1Idx o) (to_unsigned v) (phStaIdx o)
                (observedDiffTime o) (aPrioriWeight o) (isXcorr o).

(** [struct Solver::EventParams] and [struct Solver::StationParams]. *)
Record EventParams : Type := mkEventParams {
  ep_lat : R; ep_lon : R; ep_depth : R;
  ep_x : R; ep_y : R; ep_z : R
}.

Record StationParams : Type := mkStationParams {
  sp_lat : R; sp_lon : R; sp_elevation : R;
  sp_x : R; sp_y : R; sp_z : R
}.

(** [struct Solver::ObservationParams]. *)
Record ObservationParams : Type := mkObservationParams {
  computeEvChanges : bool;
  travelTime : R;
  travelTimeResidual : R;
  takeOffAngleAzim : R;
  takeOffAngleDip : R;
  velocityAtSrc : R;
  op_dx : R;
  op_dy : R;
  op_dz : R
}.

(** [struct Solver::ParamStats]; every member has a default initialiser. *)
Record ParamStats : Type := mkParamStats {
  startingTTObs : Z;
  startingCCObs : Z;
  finalTotalObs : Z;
  totalAPrioriWeight : R;
  totalFinalWeight : R;
  totalResiduals : R;
  peerEvIds : gset Z
}.

Definition ParamStats_default : ParamStats :=
  mkParamStats 0 0 0 0%R 0%R 0%R ∅.

(** The anonymous struct of [_centroid], and [struct Solver::EventDeltas]. *)
Record Centroid : Type := mkCentroid { c_lat : R; c_lon : R; c_depth : R }.

Record EventDeltas : Type := mkEventDeltas {
  deltaLat : R; deltaLon : R; deltaDepth : R; deltaTT : R
}.

(** Modelled from the spec: [IdToIndex] is declared in [utils.h], which is
    not among the sources.  It is the dedup-keyed table of the observation
    store: a finite map from identifiers to the integer indices that key
    the contiguous arrays, empty when constructed, and handing out the
    indices [0, 1, 2, ...] in order of first appearance. *)
Record IdToIndex (K : Type) `{Countable K} : Type := mkIdToIndex {
  to_idx : gmap K Z
}.
Arguments mkIdToIndex {K _ _} _.
Arguments to_idx {K _ _} _.

(** Modelled from the spec: the default-constructed table of [utils.h],
    with no identifier in it. *)
Definition IdToIndex_new {K : Type} `{Countable K} : IdToIndex K :=
  mkIdToIndex ∅.

(** Modelled from the spec: whether the table of [utils.h] knows an
    identifier. *)
Definition IdToIndex_has {K : Type} `{Countable K} (c : IdToIndex K) (id : K) : bool :=
  bool_decide (is_Some (to_idx c !! id)).

(** Modelled from the spec: the index of an identifier in the table of
    [utils.h]; an unknown identifier gets the next free index. *)
Definition IdToIndex_convert {K : Type} `{Countable K} (c : IdToIndex K) (id : K)
  : IdToIndex K * Z :=
  match to_idx c !! id with
  | Some i => (c, i)
  | None =>
      let i := to_unsigned (Z.of_nat (size (to_idx c))) in
      (mkIdToIndex (<[id := i]> (to_idx c)), i)
  end.

(** The members of [class Solver], in declaration order. *)
Record Solver : Type := mkSolver {
  _eventIdConverter : IdToIndex Z;
  _phStaIdConverter : IdToIndex string;
  _obsIdConverter : IdToIndex string;
  _observations : gmap Z Observation;
  _eventParams : gmap Z EventParams;
  _stationParams : gmap Z StationParams;
  _obsParams : gmap Z (gmap Z ObservationParams);
  _paramStats : gmap Z (gmap Z ParamStats);
  _centroid : Centroid;
  _eventDeltas : gmap Z EventDeltas;
  _residuals : list R;
  _dd : option DDSystem;
  _type : string
}.

(** [Solver::Solver(std::string type) : _type(type) {}].  Every container
    member is default-constructed, the smart pointer [_dd] is null, and
    the three [double]s of [_centroid] are left indeterminate: their
    values [c] are an input of the constructor. *)
Definition Solver_new (c : Centroid) (type : string) : Solver :=
  {| _eventIdConverter := IdToIndex_new;
     _phStaIdConverter := IdToIndex_new;
     _obsIdConverter := IdToIndex_new;
     _observations := ∅;
     _eventParams := ∅;
     _stationParams := ∅;
     _obsParams := ∅;
     _paramStats := ∅;
     _centroid := c;
     _eventDeltas := ∅;
     _residuals := [];
     _dd := None;
     _type := type |}.

(** The implicit copy assignment [*this = other]: member by member. *)
Definition Solver_assign (this other : Solver) : Solver :=
  {| _eventIdConverter := _eventIdConverter other;
     _phStaIdConverter := _phStaIdConverter other;
     _obsIdConverter := _obsIdConverter other;
     _observations := _observations other;
     _eventParams := _eventParams other;
     _stationParams := _stationParams other;
     _obsParams := _obsParams other;
     _paramStats := _paramStats other;
     _centroid := _centroid other;
     _eventDeltas := _eventDeltas other;
     _residuals := _residuals other;
     _dd := _dd other;
     _type := _type other |}.

(** [void reset() { *this = Solver(_type); }]. *)
Definition reset (c : Centroid) (s : Solver) : Solver :=
  Solver_assign s (Solver_new c (_type s)).

(** The default arguments of [Solver::solve]. *)
Record SolveArgs : Type := mkSolveArgs {
  numIterations : Z;
  useTTconstraint : bool;
  dampingFactor : R;
  residualDownWeight : R;
  normalizeG : bool
}.

(** [solve(numIterations = 0, useTTconstraint = false, dampingFactor = 0,
    residualDownWeight = 0, normalizeG = true)]: a call supplies a prefix
    of the argument list and the declaration fills in the rest. *)
Definition solve_args (given_numIterations : option Z)
    (given_useTTconstraint : option bool) (given_dampingFactor : option R)
    (given_residualDownWeight : option R) (given_normalizeG : option bool)
  : SolveArgs :=
  {| numIterations := default 0 given_numIterations;
     useTTconstraint := default false given_useTTconstraint;
     dampingFactor := default 0%R given_dampingFactor;
     residualDownWeight := default 0%R given_residualDownWeight;
     normalizeG := default true given_normalizeG |}.

(** [solve()] with no explicit argument. *)
Definition solve_default_args : SolveArgs :=
  solve_args None None None None None.

(** [struct SolverOptions] of [hypodd.h] with its default member
    initialisers. *)
Record SolverOptions : Type := mkSolverOptions {
  so_type : string;
  L2normalization : bool;
  solverIterations : Z;
  algoIterations : Z;
  ttConstraint : bool;
  dampingFactorStart : R;
  dampingFactorEnd : R;
  downWeightingByResidualStart : R;
  downWeightingByResidualEnd : R;
  usePickUncertainty : bool;
  absTTDiffObsWeight : R;
  xcorrObsWeight : R
}.

Definition SolverOptions_default : SolverOptions :=
  {| so_type := "LSMR";
     L2normalization := true;
     solverIterations := 0;
     algoIterations := 20;
     ttConstraint := true;
     dampingFactorStart := 0%R;
     dampingFactorEnd := 0%R;
     downWeightingByResidualStart := 0%R;
     downWeightingByResidualEnd := 0%R;
     usePickUncertainty := false;
     absTTDiffObsWeight := 1%R;
     xcorrObsWeight := 1%R |}.

(* ===================================================================== *)
(** * NonLinLoc grids *)
(* ===================================================================== *)

Module NLL.

(** [enum class Grid::Type]. *)
Inductive GridType : Type := time | angle | velocity.

(** The members of [Grid::Info] that are numbers or flags ([numx],
    [numy], [numz] are [unsigned long long]); the file paths, labels and
    the coordinate transform play no part below. *)
Record Info : Type := mkInfo {
  gridType : GridType;
  swapBytes : bool;
  numx : Z; numy : Z; numz : Z;
  origx : R; origy : R; origz : R;
  dx : R; dy : R; dz : R;
  useDouble : bool
}.

(** The dynamic class of a grid object: [Grid] and its three subclasses. *)
Inductive GridClass : Type := CGrid | CTimeGrid | CAngleGrid | CVelGrid.

Record Grid : Type := mkGrid { class_of : GridClass; info : Info }.

(** [virtual bool Grid::is3D() const { return info.numx > 1; }] *)
Definition Grid_is3D (g : Grid) : bool := 1 <? numx (info g).

(** [virtual bool VelGrid::is3D() const { return info.numx > 2; }] *)
Definition VelGrid_is3D (g : Grid) : bool := 2 <? numx (info g).

(** The virtual call [g.is3D()]: [VelGrid] overrides, [TimeGrid] and
    [AngleGrid] inherit. *)
Definition is3D (g : Grid) : bool :=
  match class_of g with
  | CVelGrid => VelGrid_is3D g
  | CGrid | CTimeGrid | CAngleGrid => Grid_is3D g
  end.

End NLL.

(* ===================================================================== *)
(** * Observation store operations *)
(* ===================================================================== *)

(** Modelled from the spec: the sources declare no error type; these are
    the error kinds of the design document. *)
Inductive ErrorKind : Type :=
| InsufficientNeighbours
| MissingTravelTime
| SingularSystem
| InvalidInput
| NonConvergence.

(** Modelled from the spec: the type of the observation keys, which
    [solver.cpp] builds:
    [(min(e1,e2), max(e1,e2), stationId, phase, isXcorr)]. *)
Definition ObsKey : Type := (Z * Z * string * ascii * bool)%type.

(** Modelled from the spec: the canonical ordered key of an observation,
    built in [solver.cpp]; the two events enter by their minimum and
    their maximum. *)
Definition canonical_key (evId1 evId2 : Z) (staId : string) (phase : ascii)
    (xcorr : bool) : ObsKey :=
  (Z.min evId1 evId2, Z.max evId1 evId2, staId, phase, xcorr).

(** The arguments of one [addObservation] call, as the header lists
    them. *)
Record AddObservationArgs : Type := mkAddObservationArgs {
  a_evId1 : Z;
  a_evId2 : Z;
  a_staId : string;
  a_phase : ascii;
  a_diffTime : R;
  a_aPrioriWeight : R;
  a_isXcorr : bool
}.

(** Modelled from the spec: the key an [addObservation] call maps to. *)
Definition key_of (a : AddObservationArgs) : ObsKey :=
  canonical_key (a_evId1 a) (a_evId2 a) (a_staId a) (a_phase a) (a_isXcorr a).

Section ObservationStore.

(** The two converters keyed by [std::string] take a serialisation of
    the observation key and of the (station, phase) pair.  The header
    fixes the key type only; the serialisations are left open. *)
Variable obsId : ObsKey -> string.
Variable phStaId : string -> ascii -> string.

(** Modelled from the spec: the body of [Solver::addObservation] is in
    [solver.cpp], which is not among the sources.  The call is
    deduplicated by the canonical ordered key
    [(min(e1,e2), max(e1,e2), stationId, phase, isXcorr)]: a duplicate
    add is rejected as [InvalidInput] and nothing is stored; otherwise
    the three identifiers are converted to indices and the observation
    [(ev1_idx, ev2_idx, phSta_idx, dt, a_priori_weight, is_xcorr)] is
    stored under a new observation index. *)
Definition addObservation (s : Solver) (a : AddObservationArgs)
  : Solver * option ErrorKind :=
  let key := obsId (key_of a) in
  if IdToIndex_has (_obsIdConverter s) key then (s, Some InvalidInput)
  else
    let '(evc1, evIdx1) := IdToIndex_convert (_eventIdConverter s) (a_evId1 a) in
    let '(evc2, evIdx2) := IdToIndex_convert evc1 (a_evId2 a) in
    let '(phc, phIdx) :=
      IdToIndex_convert (_phStaIdConverter s) (phStaId (a_staId a) (a_phase a)) in
    let '(obc, obsIdx) := IdToIndex_convert (_obsIdConverter s) key in
    ({| _eventIdConverter := evc2;
        _phStaIdConverter := phc;
        _obsIdConverter := obc;
        _observations :=
          <[obsIdx := mkObservation evIdx1 evIdx2 phIdx (a_diffTime a)
                                    (a_aPrioriWeight a) (a_isXcorr a)]>
            (_observations s);
        _eventParams := _eventParams s;
        _stationParams := _stationParams s;
        _obsParams := _obsParams s;
        _paramStats := _paramStats s;
        _centroid := _centroid s;
        _eventDeltas := _eventDeltas s;
        _residuals := _residuals s;
        _dd := _dd s;
        _type := _type s |}, None).

(** A sequence of [addObservation] calls, each one continuing from the
    state the previous one left, rejected or not. *)
Definition addObservations (s : Solver) (calls : list AddObservationArgs) : Solver :=
  fold_left (fun st a => fst (addObservation st a)) calls s.

End ObservationStore.

(** The public mutators of [Solver], as far as their arguments go. *)
Inductive Call : Type :=
| CallAddObservation (a : AddObservationArgs)
| CallAddObservationParams (evId : Z) (staId : string) (phase : ascii)
    (evLoc staLoc : R * R * R) (computeEvChanges_flag : bool)
    (tt residual azim dip vel : R)
| CallSolve (args : SolveArgs).

(** A run of the calls of [calls], in order, from [s], under an
    interpretation [exec] of each call. *)
Definition run_calls (exec : Call -> Solver -> Solver) (calls : list Call)
    (s : Solver) : Solver :=
  fold_left (fun st c => exec c st) calls s.

(* ===================================================================== *)
(** * Matrix-vector product of the DD system *)
(* ===================================================================== *)

Definition nth_R (l : list R) (i : nat) : R := default 0%R (l !! i).

Definition sum_R (l : list R) : R := foldr Rplus 0%R l.

(** [Σ_{k < 4} f k]. *)
Definition sum4 (f : nat -> R) : R := sum_R (map f (seq 0 4)).

(** Modelled from the spec: the products with [G] are in [solver.cpp],
    which is not among the sources.  [G[e, s]] is the 4-vector stored for
    the pair (event [e], phase-station [s]) in the [nEvts × nPhStas]
    array. *)
Definition G_at (dd : DDSystem) (e s : Z) : Vec4 :=
  default (mkVec4 0 0 0 0) (G dd !! Z.to_nat (e * nPhStas dd + s)).

(** Modelled from the spec: coefficient [k] of event [e] at phase-station
    [s] in the product of [solver.cpp], the stored partial derivative for
    [k < 3] and [1], the origin-time partial, for [k = 3]. *)
Definition coef (dd : DDSystem) (e s : Z) (k : nat) : R :=
  match k with
  | 3%nat => 1%R
  | _ => vec4_get (G_at dd e s) k
  end.

(** Modelled from the spec: the contribution of one event of a row,
    [Σ_k G[e,phSta][k]·x[e·4+k]]; it is dropped when the index is [-1]. *)
Definition event_term (dd : DDSystem) (x : list R) (e s : Z) : R :=
  if e =? -1 then 0%R
  else sum4 (fun k => (coef dd e s k * nth_R x (Z.to_nat (e * 4 + Z.of_nat k)))%R).

(** Modelled from the spec: row [r] of [y = G·x].  The first [nObs] rows
    are observation rows, the others constraint rows; a constraint row
    belongs to the event its row metadata names. *)
Definition row_product (dd : DDSystem) (x : list R) (r : nat) : R :=
  let w := nth_R (W dd) r in
  let e1 := default (-1) (evByObs0 dd !! r) in
  let e2 := default (-1) (evByObs1 dd !! r) in
  let s := default 0 (phStaByObs dd !! r) in
  if Z.of_nat r <? nObs dd
  then (w * (event_term dd x e1 s - event_term dd x e2 s))%R
  else if e1 =? -1 then 0%R
  else (w * nth_R x (Z.to_nat (e1 * 4 + 3)))%R.

(** Modelled from the spec: the matrix-vector product [y = G·x], one
    entry per row. *)
Definition matvec (dd : DDSystem) (x : list R) : list R :=
  map (row_product dd x) (seq 0 (Z.to_nat (numRowsG dd))).

(* ===================================================================== *)
(** * Column normalisation *)
(* ===================================================================== *)

(** The unit vector [e_c] of length [n]. *)
Definition unit_vec (n c : nat) : list R :=
  map (fun j => if Nat.eqb j c then 1%R else 0%R) (seq 0 n).

Definition norm2 (v : list R) : R := sqrt (sum_R (map (fun a => (a * a)%R) v)).

(** Modelled from the spec: column [c] of the operator of [solver.cpp],
    [G·e_c]. *)
Definition column (dd : DDSystem) (c : nat) : list R :=
  matvec dd (unit_vec (Z.to_nat (numColsG dd)) c).

(** Modelled from the spec: step 5 of the driver, in [solver.cpp].  The
    scaler of a column is its L2 norm, or [1] where the norm is [0]. *)
Definition scaler_of (dd : DDSystem) (c : nat) : R :=
  let n := norm2 (column dd c) in
  if Req_dec_T n 0 then 1%R else n.

(** Modelled from the spec: the scalers of all columns, as step 5 of the
    driver computes them in [solver.cpp]. *)
Definition computeL2NScaler (dd : DDSystem) : list R :=
  map (scaler_of dd) (seq 0 (Z.to_nat (numColsG dd))).

Definition with_L2NScaler (dd : DDSystem) (s : list R) : DDSystem :=
  {| nObs := nObs dd; nEvts := nEvts dd; nPhStas := nPhStas dd;
     nTTconstraints := nTTconstraints dd; W := W dd; G := G dd;
     m := m dd; d := d dd; L2NScaler := s;
     evByObs0 := evByObs0 dd; evByObs1 := evByObs1 dd;
     phStaByObs := phStaByObs dd;
     numColsG := numColsG dd; numRowsG := numRowsG dd |}.

(** Modelled from the spec: step 5 of the driver, in [solver.cpp]: the
    system with its scalers computed. *)
Definition normalize (dd : DDSystem) : DDSystem :=
  with_L2NScaler dd (computeL2NScaler dd).

(** Modelled from the spec: the solution recovered in [solver.cpp],
    [m' / L2NScaler], entry by entry. *)
Definition descale (dd : DDSystem) (x : list R) : list R :=
  zip_with Rdiv x (L2NScaler dd).

(** Modelled from the spec: the product of the normalised system,
    [G·diag(1/L2NScaler)·x]: the argument is read as already divided by
    [L2NScaler]. *)
Definition matvec_normalized (dd : DDSystem) (x : list R) : list R :=
  matvec dd (descale dd x).

(* ===================================================================== *)
(** * Residual reweighter *)
(* ===================================================================== *)

Fixpoint insert_sorted (a : R) (l : list R) : list R :=
  match l with
  | [] => [a]
  | b :: l' => if Rle_dec a b then a :: b :: l' else b :: insert_sorted a l'
  end.

Definition sort_R (l : list R) : list R := foldr insert_sorted [] l.

(** Modelled from the spec: the median used by the reweighter of
    [solver.cpp].  It is the middle element of the sorted sample, the
    mean of the two middle ones when their number is even, and [0] for
    the empty sample. *)
Definition median (l : list R) : R :=
  let s := sort_R l in
  let n := length s in
  match n with
  | O => 0%R
  | _ =>
      if Nat.even n
      then ((nth_R s (n / 2 - 1) + nth_R s (n / 2)) / 2)%R
      else nth_R s (n / 2)
  end.

(** Modelled from the spec: the scale estimate of the reweighter of
    [solver.cpp], [MAD = 1.4826 · median(|r_i − median(r)|)]. *)
Definition MAD (r : list R) : R :=
  let med := median r in
  (14826 / 10000 * median (map (fun ri => Rabs (ri - med)) r))%R.

(** Modelled from the spec: the cutoff of the reweighter of [solver.cpp],
    [c = α · MAD · 4.685]. *)
Definition cutoff (r : list R) (alpha : R) : R :=
  (alpha * MAD r * (4685 / 1000))%R.

(** Modelled from the spec: Tukey's biweight of one residual for the
    cutoff [c], as the reweighter of [solver.cpp] applies it. *)
Definition biweight (c ri : R) : R :=
  if Rlt_dec (Rabs ri) c then ((1 - (ri / c) ^ 2) ^ 2)%R else 0%R.

(** Modelled from the spec: the body of [Solver::computeResidualWeights]
    is in [solver.cpp], which is not among the sources.  [α = 0] disables
    the reweighting; otherwise every residual gets its biweight for the
    cutoff [α · MAD · 4.685]. *)
Definition computeResidualWeights (residuals : list R) (alpha : R) : list R :=
  if Req_dec_T alpha 0 then map (fun _ => 1%R) residuals
  else map (biweight (cutoff residuals alpha)) residuals.

(* ===================================================================== *)
(** * Travel-time adapter and the outer loop of the driver *)
(* ===================================================================== *)

(** The four output parameters of [NllTravelTimeTable::compute]. *)
Record TravelTimeInfo : Type := mkTravelTimeInfo {
  travelTime_sec : R;
  takeoffAzimuth_deg : R;
  takeoffDip_deg : R;
  srcVelocity_km_s : R
}.

(** Modelled from the spec: the outcome of one [compute] request, the
    quadruple or a failure indicator when the request falls outside the
    model. *)
Inductive TTOutcome : Type :=
| TTValue (q : TravelTimeInfo)
| TTFailure.

(** The row metadata of a packed system: the two event-index arrays and
    the phase-station array of [DDSystem]. *)
Record PackedRows : Type := mkPackedRows {
  p_evByObs0 : list Z;
  p_evByObs1 : list Z;
  p_phStaByObs : list Z
}.

(** Modelled from the spec: the state of the driver of [hypodd.cpp].
    It holds, across outer iterations, the hypocenter
    [(lat, lon, depth)] of every event and the events whose column is
    fixed. *)
Record DriverState : Type := mkDriverState {
  hypo : Z -> R * R * R;
  fixed : gset Z
}.

Section Driver.

(** The adapter, [(eventLat, eventLon, eventDepth, station, phaseType)]
    to outcome, and the (station, phase) of a phase-station index. *)
Variable compute : R -> R -> R -> string -> string -> TTOutcome.
Variable phSta_of : Z -> string * string.

(** The observations of the run. *)
Variable obs : list Observation.

(** The remainder of an outer iteration: build the system on the packed
    rows, solve, apply the deltas to the hypocenters. *)
Variable solve_and_apply : PackedRows -> (Z -> R * R * R) -> Z -> R * R * R.

(** Modelled from the spec: whether the adapter fails for event [e] at
    phase-station [s], as the driver of [hypodd.cpp] finds out. *)
Definition tt_fails (h : Z -> R * R * R) (e s : Z) : bool :=
  let '(lat, lon, depth) := h e in
  match compute lat lon depth (fst (phSta_of s)) (snd (phSta_of s)) with
  | TTValue _ => false
  | TTFailure => true
  end.

(** Modelled from the spec: the failure test of the driver of
    [hypodd.cpp].  These are the events whose partial derivatives cannot
    be computed: step 2 of
    the outer loop calls the adapter for every (event, phSta) referenced
    by some observation. *)
Definition failing_events (h : Z -> R * R * R) : list Z :=
  flat_map (fun o =>
              (if tt_fails h (ev1Idx o) (phStaIdx o) then [ev1Idx o] else [])
              ++ (if tt_fails h (ev2Idx o) (phStaIdx o) then [ev2Idx o] else []))
           obs.

(** Modelled from the spec: the pack step of [solver.cpp]; the index of a
    fixed event is flipped to [-1] during pack. *)
Definition pack_index (fx : gset Z) (e : Z) : Z :=
  if decide (e ∈ fx) then -1 else e.

(** Modelled from the spec: the row metadata packed by [solver.cpp] for
    the observations of the run. *)
Definition pack (fx : gset Z) : PackedRows :=
  {| p_evByObs0 := map (fun o => pack_index fx (ev1Idx o)) obs;
     p_evByObs1 := map (fun o => pack_index fx (ev2Idx o)) obs;
     p_phStaByObs := map phStaIdx obs |}.

(** Modelled from the spec: one outer iteration of the relocation
    driver ([hypodd.cpp] is not among the sources).  An event whose
    partial derivatives cannot be computed joins the fixed events, and
    stays there. *)
Definition outer_iteration (st : DriverState) : DriverState * PackedRows :=
  let fx := fixed st ∪ list_to_set (failing_events (hypo st)) in
  let rows := pack fx in
  ({| hypo := solve_and_apply rows (hypo st); fixed := fx |}, rows).

(** Modelled from the spec: the outer loop of [hypodd.cpp], [n]
    iterations, with the system packed by each. *)
Fixpoint outer_loop (n : nat) (st : DriverState) : list PackedRows * DriverState :=
  match n with
  | O => ([], st)
  | S k =>
      let '(st', rows) := outer_iteration st in
      let '(tr, fin) := outer_loop k st' in
      (rows :: tr, fin)
  end.

(** Modelled from the spec: the state of the driver of [hypodd.cpp] at
    the start of outer iteration [i]. *)
Fixpoint state_at (i : nat) (st : DriverState) : DriverState :=
  match i with
  | O => st
  | S k => state_at k (fst (outer_iteration st))
  end.

End Driver.

(* ===================================================================== *)
(** * DDSystem: the arrays on the heap *)
(* ===================================================================== *)

Global Instance DDArray_eq_dec : EqDecision DDArray.
Proof. solve_decision. Defined.

(** One statement of the constructor body or of the destructor body:
    [p = new T[n]] for the pointer member [p], or [delete[] p]. *)
Inductive HeapOp : Type :=
| OpNew (a : DDArray)
| OpDelete (a : DDArray).

(** What goes wrong with owned arrays: a pointer that still owns an array
    is overwritten, or an array that is not owned is deleted. *)
Inductive HeapError : Type :=
| Leaked (a : DDArray)
| BadDelete (a : DDArray).

(** The body of [DDSystem::DDSystem], lines 91 to 98, statement by
    statement. *)
Definition DDSystem_ctor_body : list HeapOp :=
  [OpNew ArrW; OpNew ArrG; OpNew ArrM; OpNew ArrD; OpNew ArrL2NScaler;
   OpNew ArrEv0; OpNew ArrEv1; OpNew ArrPhSta].

(** The body of [DDSystem::~DDSystem], lines 103 to 110. *)
Definition DDSystem_dtor_body : list HeapOp :=
  [OpDelete ArrPhSta; OpDelete ArrEv0; OpDelete ArrEv1; OpDelete ArrL2NScaler;
   OpDelete ArrD; OpDelete ArrM; OpDelete ArrG; OpDelete ArrW].

(** One statement on the list of the arrays the object owns. *)
Definition heap_step (live : list DDArray) (op : HeapOp)
  : HeapError + list DDArray :=
  match op with
  | OpNew a =>
      if decide (a ∈ live) then inl (Leaked a) else inr (a :: live)
  | OpDelete a =>
      if decide (a ∈ live) then inr (filter (fun b => b <> a) live)
      else inl (BadDelete a)
  end.

Fixpoint heap_run (ops : list HeapOp) (live : list DDArray)
  : HeapError + list DDArray :=
  match ops with
  | [] => inr live
  | op :: ops' =>
      match heap_step live op with
      | inl e => inl e
      | inr live' => heap_run ops' live'
      end
  end.

(* ===================================================================== *)
(** * Take-off angles of the angle grid *)
(* ===================================================================== *)

Module AngleGrid.

(** [struct AngleGrid::TakeOffAngles]: three bit-fields of an
    [unsigned short], 4, 12 and 16 bits wide. *)
Record TakeOffAngles : Type := mkTakeOffAngles {
  quality : Z;
  dip : Z;
  azimuth : Z
}.

Definition QUALITY_WIDTH : Z := 4.
Definition DIP_WIDTH : Z := 12.
Definition AZIMUTH_WIDTH : Z := 16.

(** [static const unsigned QUALITY_CUTOFF = 5]. *)
Definition QUALITY_CUTOFF : Z := 5.

(** The ranges the member comments give: quality 0 to 10, dip 0 (down)
    to 1800 (up) and azimuth 0 to 3600, in tenths of a degree. *)
Definition documented (t : TakeOffAngles) : Prop :=
  0 <= quality t <= 10 /\ 0 <= dip t <= 1800 /\ 0 <= azimuth t <= 3600.

(** The value an unsigned bit-field of [w] bits holds after it is
    assigned [v]. *)
Definition bitfield (w v : Z) : Z := v mod 2 ^ w.

(** [t.quality = q; t.dip = dp; t.azimuth = az;] on a struct. *)
Definition assign (q dp az : Z) : TakeOffAngles :=
  {| quality := bitfield QUALITY_WIDTH q;
     dip := bitfield DIP_WIDTH dp;
     azimuth := bitfield AZIMUTH_WIDTH az |}.

End AngleGrid.

(* ===================================================================== *)
(** * hypodd.h: configuration, clustering options, accessors *)
(* ===================================================================== *)

(** The two members of [Catalog::Phase::Type] this header names. *)
Inductive PhaseType : Type := PhaseP | PhaseS.

(** [struct Config::XCorr]. *)
Record XCorr : Type := mkXCorr {
  minCoef : R;
  startOffset : R;
  endOffset : R;
  maxDelay : R;
  components : list string
}.

(** The value-initialised [XCorr] of the initialiser [{}]. *)
Definition XCorr_empty : XCorr := mkXCorr 0 0 0 0 [].

(** [struct Config] with its default member initialisers; the three
    anonymous structs are flattened into their members. *)
Record Config : Type := mkConfig {
  validPphases : list string;
  validSphases : list string;
  recordStreamURL : string;
  xcorr : list (PhaseType * XCorr);
  wfFilter_filterStr : string;
  wfFilter_resampleFreq : R;
  snr_minSnr : R;
  snr_noiseStart : R;
  snr_noiseEnd : R;
  snr_signalStart : R;
  snr_signalEnd : R;
  ttt_type : string;
  ttt_model : string
}.

Definition Config_default : Config :=
  {| validPphases := ["Pg"; "P"; "Px"];
     validSphases := ["Sg"; "S"; "Sx"];
     recordStreamURL := "";
     xcorr := [(PhaseP, XCorr_empty); (PhaseS, XCorr_empty)];
     wfFilter_filterStr := "";
     wfFilter_resampleFreq := 0%R;
     snr_minSnr := 0%R;
     snr_noiseStart := 0%R;
     snr_noiseEnd := 0%R;
     snr_signalStart := 0%R;
     snr_signalEnd := 0%R;
     ttt_type := "LOCSAT";
     ttt_model := "iasp91" |}.

(** [struct ClusteringOptions] with its default member initialisers. *)
Record ClusteringOptions : Type := mkClusteringOptions {
  minWeight : R;
  minEStoIEratio : R;
  minESdist : R;
  maxESdist : R;
  minNumNeigh : Z;
  maxNumNeigh : Z;
  minDTperEvt : Z;
  maxDTperEvt : Z;
  numEllipsoids : Z;
  maxEllipsoidSize : R;
  xcorrMaxEvStaDist : R;
  xcorrMaxInterEvDist : R
}.

Definition ClusteringOptions_default : ClusteringOptions :=
  {| minWeight := 0%R;
     minEStoIEratio := 0%R;
     minESdist := 0%R;
     maxESdist := (-1)%R;
     minNumNeigh := 1;
     maxNumNeigh := 0;
     minDTperEvt := 1;
     maxDTperEvt := 0;
     numEllipsoids := 5;
     maxEllipsoidSize := 10%R;
     xcorrMaxEvStaDist := (-1)%R;
     xcorrMaxInterEvDist := (-1)%R |}.

(** The two trailing parameters of [HypoDD::buildXCorrCache],
    [xcorrMaxEvStaDist = -1] and [xcorrMaxInterEvDist = -1], as a call
    that gives a prefix of them sees them. *)
Definition buildXCorrCache_limits (given_xcorrMaxEvStaDist : option R)
    (given_xcorrMaxInterEvDist : option R) : R * R :=
  (default (-1)%R given_xcorrMaxEvStaDist,
   default (-1)%R given_xcorrMaxInterEvDist).

(** The anonymous struct of [_counters]: twelve [unsigned] counters. *)
Record Counters : Type := mkCounters {
  xcorr_performed : Z;
  xcorr_performed_theo : Z;
  xcorr_performed_s : Z;
  xcorr_performed_s_theo : Z;
  xcorr_good_cc : Z;
  xcorr_good_cc_theo : Z;
  xcorr_good_cc_s : Z;
  xcorr_good_cc_s_theo : Z;
  wf_downloaded : Z;
  wf_no_avail : Z;
  wf_disk_cached : Z;
  wf_snr_low : Z
}.

(** The data members of [class HypoDD], in declaration order.  The
    catalogs, the travel-time table and the waveform loaders are smart
    pointers to classes of other headers: they are kept together in
    [externals], of a type [Ext] the class is parametrised by. *)
Record HypoDD (Ext : Type) : Type := mkHypoDD {
  _workingDirCleanup : bool;
  _workingDir : string;
  _cacheDir : string;
  _tmpCacheDir : string;
  _wfDebugDir : string;
  _cfg : Config;
  _useCatalogWaveformDiskCache : bool;
  _waveformCacheAll : bool;
  _waveformDebug : bool;
  _useArtificialPhases : bool;
  externals : Ext;
  _unloadableWfs : gset string;
  _counters : Counters
}.
Arguments mkHypoDD {Ext}.
Arguments _workingDirCleanup {Ext}.
Arguments _workingDir {Ext}.
Arguments _cacheDir {Ext}.
Arguments _tmpCacheDir {Ext}.
Arguments _wfDebugDir {Ext}.
Arguments _cfg {Ext}.
Arguments _useCatalogWaveformDiskCache {Ext}.
Arguments _waveformCacheAll {Ext}.
Arguments _waveformDebug {Ext}.
Arguments _useArtificialPhases {Ext}.
Arguments externals {Ext}.
Arguments _unloadableWfs {Ext}.
Arguments _counters {Ext}.

Section HypoDDAccessors.

Context {Ext : Type}.

(** [void setWorkingDirCleanup(bool cleanup) { _workingDirCleanup = cleanup; }] *)
Definition setWorkingDirCleanup (h : HypoDD Ext) (cleanup : bool) : HypoDD Ext :=
  mkHypoDD cleanup (_workingDir h) (_cacheDir h) (_tmpCacheDir h)
           (_wfDebugDir h) (_cfg h) (_useCatalogWaveformDiskCache h)
           (_waveformCacheAll h) (_waveformDebug h) (_useArtificialPhases h)
           (externals h) (_unloadableWfs h) (_counters h).

(** [bool workingDirCleanup() const { return _workingDirCleanup; }] *)
Definition workingDirCleanup (h : HypoDD Ext) : bool := _workingDirCleanup h.

(** [bool useCatalogWaveformDiskCache() const] *)
Definition useCatalogWaveformDiskCache (h : HypoDD Ext) : bool :=
  _useCatalogWaveformDiskCache h.

(** [void setWaveformCacheAll(bool all) { _waveformCacheAll = all; }] *)
Definition setWaveformCacheAll (h : HypoDD Ext) (all : bool) : HypoDD Ext :=
  mkHypoDD (_workingDirCleanup h) (_workingDir h) (_cacheDir h) (_tmpCacheDir h)
           (_wfDebugDir h) (_cfg h) (_useCatalogWaveformDiskCache h)
           all (_waveformDebug h) (_useArtificialPhases h)
           (externals h) (_unloadableWfs h) (_counters h).

(** [bool waveformCacheAll() const { return _waveformCacheAll; }] *)
Definition waveformCacheAll (h : HypoDD Ext) : bool := _waveformCacheAll h.

(** [bool waveformDebug() const { return _waveformDebug; }] *)
Definition waveformDebug (h : HypoDD Ext) : bool := _waveformDebug h.

(** [void setUseArtificialPhases(bool use) { _useArtificialPhases = use; }] *)
Definition setUseArtificialPhases (h : HypoDD Ext) (use : bool) : HypoDD Ext :=
  mkHypoDD (_workingDirCleanup h) (_workingDir h) (_cacheDir h) (_tmpCacheDir h)
           (_wfDebugDir h) (_cfg h) (_useCatalogWaveformDiskCache h)
           (_waveformCacheAll h) (_waveformDebug h) use
           (externals h) (_unloadableWfs h) (_counters h).

(** [bool useArtificialPhases() const { return _useArtificialPhases; }] *)
Definition useArtificialPhases (h : HypoDD Ext) : bool := _useArtificialPhases h.

(** A call of one of the three setters the header defines inline. *)
Inductive SetterCall : Type :=
| SetWorkingDirCleanup (cleanup : bool)
| SetWaveformCacheAll (all : bool)
| SetUseArtificialPhases (use : bool).

Definition setter_exec (h : HypoDD Ext) (c : SetterCall) : HypoDD Ext :=
  match c with
  | SetWorkingDirCleanup b => setWorkingDirCleanup h b
  | SetWaveformCacheAll b => setWaveformCacheAll h b
  | SetUseArtificialPhases b => setUseArtificialPhases h b
  end.

(** The calls of [calls], in order, on [h]. *)
Definition setters_run (calls : list SetterCall) (h : HypoDD Ext) : HypoDD Ext :=
  fold_left setter_exec calls h.

End HypoDDAccessors.

(** The argument of a call when it is a call of the given setter. *)
Definition arg_workingDirCleanup (c : SetterCall) : option bool :=
  match c with SetWorkingDirCleanup b => Some b | _ => None end.

Definition arg_waveformCacheAll (c : SetterCall) : option bool :=
  match c with SetWaveformCacheAll b => Some b | _ => None end.

Definition arg_useArtificialPhases (c : SetterCall) : option bool :=
  match c with SetUseArtificialPhases b => Some b | _ => None end.

(** The argument of the last call of a setter in [calls], or [dflt] when
    [calls] has no call of it. *)
Definition last_arg (arg : SetterCall -> option bool) (calls : list SetterCall)
    (dflt : bool) : bool :=
  default dflt (last (omap arg calls)).

(** A [HypoDD] whose flags hold their default member initialisers. *)
Definition hypodd_example : HypoDD unit :=
  mkHypoDD true "" "" "" "" Config_default true false false true tt ∅
           (mkCounters 0 0 0 0 0 0 0 0 0 0 0 0).

(* ===================================================================== *)
(** * Statements *)
(* ===================================================================== *)

(** The sizes of a system constructed from [(a, b, c, t)] =
    [(nObs, nEvts, nPhStas, nTTconstraints)], given the number of rows,
    of columns and of stored 4-vectors. *)
Definition sizes_are (dd : DDSystem) (rows cols vecs : Z) : Prop :=
  numRowsG dd = rows
  /\ Z.of_nat (length (W dd)) = rows
  /\ Z.of_nat (length (d dd)) = rows
  /\ Z.of_nat (length (evByObs dd 0)) = rows
  /\ Z.of_nat (length (evByObs dd 1)) = rows
  /\ Z.of_nat (length (phStaByObs dd)) = rows
  /\ numColsG dd = cols
  /\ Z.of_nat (length (m dd)) = cols
  /\ Z.of_nat (length (L2NScaler dd)) = cols
  /\ Z.of_nat (length (G dd)) = vecs.

(** The sizes as the unbounded sums and products. *)
Definition sizes_exact (u : Uninit) (a b c t : Z) : Prop :=
  sizes_are (DDSystem_new u a b c t) (a + t) (4 * b) (b * c).

(** The sizes as the [unsigned] sums and products. *)
Definition sizes_wrapped (u : Uninit) (a b c t : Z) : Prop :=
  sizes_are (DDSystem_new u a b c t)
            ((a + t) mod UINT_MOD) ((4 * b) mod UINT_MOD) ((b * c) mod UINT_MOD).

(** Fresh memory that happens to be all zeros. *)
Definition zero_uninit : Uninit :=
  {| junk_double := fun _ _ => 0%R;
     junk_vec4 := fun _ => mkVec4 0 0 0 0;
     junk_int := fun _ _ => 0;
     junk_unsigned := fun _ => 0 |}.

(** A solver is cleared when every container is empty and [_dd] is null. *)
Definition cleared (s : Solver) : Prop :=
  _observations s = ∅
  /\ _obsParams s = ∅
  /\ _paramStats s = ∅
  /\ _eventDeltas s = ∅
  /\ _residuals s = []
  /\ _eventIdConverter s = IdToIndex_new
  /\ _phStaIdConverter s = IdToIndex_new
  /\ _obsIdConverter s = IdToIndex_new
  /\ _eventParams s = ∅
  /\ _stationParams s = ∅
  /\ _dd s = None.

(** [info] with its [numx] replaced. *)
Definition with_numx (i : NLL.Info) (n : Z) : NLL.Info :=
  {| NLL.gridType := NLL.gridType i; NLL.swapBytes := NLL.swapBytes i;
     NLL.numx := n; NLL.numy := NLL.numy i; NLL.numz := NLL.numz i;
     NLL.origx := NLL.origx i; NLL.origy := NLL.origy i; NLL.origz := NLL.origz i;
     NLL.dx := NLL.dx i; NLL.dy := NLL.dy i; NLL.dz := NLL.dz i;
     NLL.useDouble := NLL.useDouble i |}.

(** A serialisation of the observation key and of the (station, phase)
    pair, for the examples. *)
Definition obsId_example (k : ObsKey) : string :=
  let '(e1, e2, sta, ph, x) := k in
  pretty e1 +:+ "+" +:+ pretty e2 +:+ "_" +:+ String ph "@" +:+ sta
         +:+ (if x then "_1" else "_0").

Definition phStaId_example (sta : string) (ph : ascii) : string :=
  String ph "@" +:+ sta.

(** An interpretation of the calls for the examples: [addObservation]
    as modelled, the two others leaving the store as it is. *)
Definition exec_example (c : Call) (s : Solver) : Solver :=
  match c with
  | CallAddObservation a => fst (addObservation obsId_example phStaId_example s a)
  | CallAddObservationParams _ _ _ _ _ _ _ _ _ _ _ => s
  | CallSolve _ => s
  end.

Definition args_example (e1 e2 : Z) (dt : R) : AddObservationArgs :=
  mkAddObservationArgs e1 e2 "CH.SIMPL." "P" dt 1%R false.

(** A small system for the examples: two events seen at one
    phase-station, one observation row pairing them and one constraint
    row on the second event. *)
Definition dd_example : DDSystem :=
  {| nObs := 1; nEvts := 2; nPhStas := 1; nTTconstraints := 1;
     W := [2; 3]%R;
     G := [mkVec4 1 0 0 1; mkVec4 0 1 0 1];
     m := [0; 0; 0; 0; 0; 0; 0; 0]%R;
     d := [0; 0]%R;
     L2NScaler := [1; 1; 1; 1; 1; 1; 1; 1]%R;
     evByObs0 := [0; 1];
     evByObs1 := [1; -1];
     phStaByObs := [0; 0];
     numColsG := 8;
     numRowsG := 2 |}.

Definition x_example : list R := [1; 2; 3; 4; 5; 6; 7; 8]%R.

(** A run for the examples: the travel-time tables do not cover station
    [XX]; three events, the first two observed at [XX], the last two at
    a covered station; hypocenters that no iteration moves. *)
Definition compute_example (lat lon depth : R) (sta ph : string) : TTOutcome :=
  if String.eqb sta "XX" then TTFailure
  else TTValue (mkTravelTimeInfo 1 0 90 6).

Definition phSta_of_example (s : Z) : string * string :=
  if s =? 0 then ("XX", "P") else ("CH.SIMPL.", "P").

Definition obs_example : list Observation :=
  [mkObservation 0 1 0 0%R 1%R false; mkObservation 1 2 1 0%R 1%R false].

Definition solve_and_apply_example (rows : PackedRows) (h : Z -> R * R * R)
  : Z -> R * R * R := h.

Definition st0_example : DriverState :=
  {| hypo := fun _ => (46, 8, 5)%R; fixed := ∅ |}.

(* ===================================================================== *)
(** * Machine integers: facts *)
(* ===================================================================== *)

Lemma UINT_MOD_value : UINT_MOD = 4294967296.
Proof. reflexivity. Qed.

Lemma to_unsigned_small (x : Z) : is_unsigned x -> to_unsigned x = x.
Proof. intros Hx. unfold to_unsigned. apply Z.mod_small. exact Hx. Qed.

Lemma to_unsigned_range (x : Z) : is_unsigned (to_unsigned x).
Proof.
  unfold is_unsigned, to_unsigned. apply Z.mod_pos_bound.
  rewrite UINT_MOD_value. lia.
Qed.

Lemma to_int_small (x : Z) : is_int x -> to_int x = x.
Proof.
  unfold is_int, to_int, INT_MIN, INT_MAX, UINT_MOD, UINT_BITS.
  change (2 ^ (32 - 1)) with 2147483648. change (2 ^ 32) with 4294967296.
  intros [Hlo Hhi].
  destruct (Z_lt_le_dec x 0) as [Hneg | Hpos].
  - replace (x mod 4294967296) with (x + 4294967296).
    + destruct (Z.leb_spec (x + 4294967296) (2147483648 - 1)); lia.
    + apply Z.mod_unique with (q := -1); lia.
  - rewrite Z.mod_small by lia.
    destruct (Z.leb_spec x (2147483648 - 1)); lia.
Qed.

Lemma length_new_array {A : Type} (n : Z) (junk : nat -> A) :
  length (new_array n junk) = Z.to_nat n.
Proof. unfold new_array. rewrite length_map, length_seq. reflexivity. Qed.

Lemma Zlength_new_array {A : Type} (n : Z) (junk : nat -> A) :
  0 <= n -> Z.of_nat (length (new_array n junk)) = n.
Proof. intros Hn. rewrite length_new_array. lia. Qed.

(* ===================================================================== *)
(** * DDSystem: the sizes fixed by the constructor *)
(* ===================================================================== *)

Lemma DDSystem_new_sizes_wrapped (u : Uninit) (a b c t : Z) :
  sizes_wrapped u a b c t.
Proof.
  unfold sizes_wrapped, sizes_are, DDSystem_new, evByObs, uadd, umul, to_unsigned.
  cbn [numRowsG numColsG W G m d L2NScaler evByObs0 evByObs1 phStaByObs].
  assert (Hpos : 0 < UINT_MOD) by (rewrite UINT_MOD_value; lia).
  pose proof (Z.mod_pos_bound (a + t) UINT_MOD Hpos).
  pose proof (Z.mod_pos_bound (b * 4) UINT_MOD Hpos).
  pose proof (Z.mod_pos_bound (b * c) UINT_MOD Hpos).
  replace (4 * b) with (b * 4) by lia.
  repeat split; try reflexivity; apply Zlength_new_array; lia.
Qed.

(** C2, as stated, fails: with [nObs = 4294967295] and
    [nTTconstraints = 1] the [unsigned] sum wraps and the constructed
    system has no row at all. *)
Lemma DDSystem_sizes_overflow : ~ sizes_exact zero_uninit 4294967295 1 1 1.
Proof.
  unfold sizes_exact, sizes_are. intros [Hrows _].
  vm_compute in Hrows. discriminate Hrows.
Qed.

(** C2 (amended): for [unsigned] arguments whose sum [nObs +
    nTTconstraints] and products [4·nEvts], [nEvts·nPhStas] fit in an
    [unsigned], the constructed system has exactly [nObs + nTTconstraints]
    rows (the length of [W], [d], [evByObs[0]], [evByObs[1]],
    [phStaByObs]), exactly [4·nEvts] columns (the length of [m] and
    [L2NScaler]), and [G] holds exactly [nEvts·nPhStas] 4-vectors. *)
Theorem DDSystem_new_sizes (u : Uninit) (a b c t : Z) :
  is_unsigned a -> is_unsigned b -> is_unsigned c -> is_unsigned t ->
  a + t < UINT_MOD -> 4 * b < UINT_MOD -> b * c < UINT_MOD ->
  sizes_exact u a b c t.
Proof.
  unfold is_unsigned. intros Ha Hb Hc Ht Hrows Hcols Hvecs.
  pose proof (DDSystem_new_sizes_wrapped u a b c t) as Hw.
  unfold sizes_wrapped in Hw. unfold sizes_exact.
  rewrite (Z.mod_small (a + t)) in Hw by lia.
  rewrite (Z.mod_small (4 * b)) in Hw by lia.
  rewrite (Z.mod_small (b * c)) in Hw by nia.
  exact Hw.
Qed.

Lemma DDSystem_new_sizes_witness : sizes_exact zero_uninit 3 2 5 2.
Proof.
  apply (DDSystem_new_sizes zero_uninit 3 2 5 2);
    unfold is_unsigned; rewrite ?UINT_MOD_value; lia.
Defined.

(* ===================================================================== *)
(** * Observation records and the index [-1] *)
(* ===================================================================== *)

Lemma evByObs_set_length (dd : DDSystem) (k r : nat) (v : Z) :
  length (evByObs (set_evByObs dd k r v) k) = length (evByObs dd k).
Proof. destruct k; cbn; apply length_insert. Qed.

Lemma evByObs_set_get (dd : DDSystem) (k r : nat) (v : Z) :
  (r < length (evByObs dd k))%nat ->
  evByObs (set_evByObs dd k r v) k !! r = Some (to_int v).
Proof. destruct k; cbn; intros Hr; apply list_lookup_insert_eq; exact Hr. Qed.

(** C3: an observation record is exactly its six members
    [(ev1Idx, ev2Idx, phStaIdx, observedDiffTime, aPrioriWeight, isXcorr)];
    the per-row event indices [evByObs] are [int]s, so that [-1] is a
    value of their type, survives the store into a row of either index
    array and is read back as [-1], and it makes the product drop the
    event; the index members of the stored record are [unsigned] and do
    not hold it. *)
Theorem Observation_six_fields_and_minus_one :
  (forall o : Observation, Observation_of_fields (Observation_fields o) = o)
  /\ (forall t : Z * Z * Z * R * R * bool,
        Observation_fields (Observation_of_fields t) = t)
  /\ is_int (-1)
  /\ to_int (-1) = -1
  /\ (forall (u : Uninit) (a b c t : Z) (k r : nat),
        (k < 2)%nat ->
        (r < Z.to_nat (numRowsG (DDSystem_new u a b c t)))%nat ->
        evByObs (set_evByObs (DDSystem_new u a b c t) k r (-1)) k !! r = Some (-1))
  /\ (forall (dd : DDSystem) (x : list R) (s : Z), event_term dd x (-1) s = 0%R)
  /\ (forall o : Observation,
        ev1Idx (Observation_set_ev1Idx o (-1)) = 4294967295
        /\ ev2Idx (Observation_set_ev2Idx o (-1)) = 4294967295).
Proof.
  split; [ intros []; reflexivity |].
  split; [ intros [[[[[e1 e2] s] dt] w] x]; reflexivity |].
  split; [ unfold is_int; vm_compute; split; discriminate |].
  split; [ reflexivity |].
  split.
  - intros u a b c t k r Hk Hr.
    rewrite evByObs_set_get; [ reflexivity |].
    destruct k as [| [| k]]; [ | | lia ]; cbn; rewrite length_new_array; exact Hr.
  - split; [ intros dd x s; reflexivity |].
    intros o. split; reflexivity.
Qed.

(* ===================================================================== *)
(** * Default arguments and default options *)
(* ===================================================================== *)

(** C9: [solve()] runs with [numIterations = 0],
    [useTTconstraint = false], [dampingFactor = 0],
    [residualDownWeight = 0] and [normalizeG = true], whereas the
    driver-level [SolverOptions] default to [ttConstraint = true] and
    [algoIterations = 20]. *)
Theorem solve_defaults :
  solve_default_args = mkSolveArgs 0 false 0%R 0%R true
  /\ ttConstraint SolverOptions_default = true
  /\ algoIterations SolverOptions_default = 20
  /\ useTTconstraint solve_default_args <> ttConstraint SolverOptions_default
  /\ (forall n : Z, numIterations (solve_args (Some n) None None None None) = n)
  /\ downWeightingByResidualStart SolverOptions_default
     = residualDownWeight solve_default_args.
Proof.
  repeat split; try reflexivity. cbn. discriminate.
Qed.

(* ===================================================================== *)
(** * Grids: two and three dimensions *)
(* ===================================================================== *)

Lemma Grid_is3D_iff (g : NLL.Grid) :
  NLL.Grid_is3D g = true <-> 1 < NLL.numx (NLL.info g).
Proof. unfold NLL.Grid_is3D. apply Z.ltb_lt. Qed.

Lemma VelGrid_is3D_iff (g : NLL.Grid) :
  NLL.VelGrid_is3D g = true <-> 2 < NLL.numx (NLL.info g).
Proof. unfold NLL.VelGrid_is3D. apply Z.ltb_lt. Qed.

(** C10: [Grid::is3D()] is true exactly when [numx > 1], also for the
    time and angle grids, which inherit it; the override of [VelGrid] is
    true exactly when [numx > 2]; a velocity grid with [numx = 2] is
    therefore 2-D where a time or angle grid of the same dimensions is
    3-D. *)
Theorem is3D_threshold :
  (forall i : NLL.Info,
      (NLL.is3D (NLL.mkGrid NLL.CGrid i) = true <-> NLL.numx i > 1)
      /\ (NLL.is3D (NLL.mkGrid NLL.CTimeGrid i) = true <-> NLL.numx i > 1)
      /\ (NLL.is3D (NLL.mkGrid NLL.CAngleGrid i) = true <-> NLL.numx i > 1)
      /\ (NLL.is3D (NLL.mkGrid NLL.CVelGrid i) = true <-> NLL.numx i > 2))
  /\ (forall i : NLL.Info,
        NLL.is3D (NLL.mkGrid NLL.CVelGrid (with_numx i 2)) = false
        /\ NLL.is3D (NLL.mkGrid NLL.CTimeGrid (with_numx i 2)) = true
        /\ NLL.is3D (NLL.mkGrid NLL.CAngleGrid (with_numx i 2)) = true).
Proof.
  split.
  - intros i. unfold NLL.is3D. cbn [NLL.class_of].
    rewrite !Grid_is3D_iff, VelGrid_is3D_iff. cbn [NLL.info]. lia.
  - intros i. repeat split; reflexivity.
Qed.

(* ===================================================================== *)
(** * reset *)
(* ===================================================================== *)

Lemma Solver_new_cleared (c : Centroid) (t : string) : cleared (Solver_new c t).
Proof. unfold cleared. repeat split; reflexivity. Qed.

Lemma run_calls_type (exec : Call -> Solver -> Solver) :
  (forall c s, _type (exec c s) = _type s) ->
  forall calls s, _type (run_calls exec calls s) = _type s.
Proof.
  intros Hexec calls. unfold run_calls.
  induction calls as [| c calls IH]; intros s; [ reflexivity |].
  cbn [fold_left]. rewrite IH. apply Hexec.
Qed.

Lemma addObservation_type obsId phStaId (s : Solver) (a : AddObservationArgs) :
  _type (fst (addObservation obsId phStaId s a)) = _type s.
Proof.
  unfold addObservation.
  destruct (IdToIndex_has _ _); [ reflexivity |].
  repeat match goal with
         | |- context [IdToIndex_convert ?c ?i] => destruct (IdToIndex_convert c i)
         end.
  reflexivity.
Qed.

(** C8: for a solver constructed with type string [t], after any
    sequence of [addObservation] / [addObservationParams] / [solve] calls
    (none of which assigns [_type]), [reset()] leaves a solver equal to a
    freshly constructed [Solver(t)]: observations, observation
    parameters, parameter statistics, event deltas, residuals, id
    converters and the [DDSystem] pointer are cleared and the type string
    [t] is the one thing kept.  [c] stands for the indeterminate centroid
    of the temporary. *)
Theorem reset_is_fresh (exec : Call -> Solver -> Solver)
    (Hexec : forall c s, _type (exec c s) = _type s)
    (t : string) (c0 c : Centroid) (calls : list Call) :
  let s := run_calls exec calls (Solver_new c0 t) in
  reset c s = Solver_new c t
  /\ cleared (reset c s)
  /\ _type (reset c s) = t.
Proof.
  intros s.
  assert (Ht : _type s = t).
  { unfold s. rewrite run_calls_type by exact Hexec. reflexivity. }
  assert (Hr : reset c s = Solver_new c t).
  { unfold reset, Solver_assign. rewrite Ht. reflexivity. }
  rewrite Hr. split; [ reflexivity |]. split; [ apply Solver_new_cleared | reflexivity ].
Qed.

Lemma reset_is_fresh_witness :
  let s := run_calls exec_example
                     [CallAddObservation (args_example 7 9 0%R);
                      CallSolve solve_default_args]
                     (Solver_new (mkCentroid 0 0 0) "LSMR") in
  reset (mkCentroid 1 1 1) s = Solver_new (mkCentroid 1 1 1) "LSMR"
  /\ cleared (reset (mkCentroid 1 1 1) s)
  /\ _type (reset (mkCentroid 1 1 1) s) = "LSMR".
Proof.
  apply (reset_is_fresh exec_example).
  intros [a | |] s; cbn [exec_example]; [ apply addObservation_type | reflexivity .. ].
Defined.

(* ===================================================================== *)
(** * addObservation: deduplication *)
(* ===================================================================== *)

Lemma canonical_key_swap (e1 e2 : Z) (sta : string) (ph : ascii) (x : bool) :
  canonical_key e1 e2 sta ph x = canonical_key e2 e1 sta ph x.
Proof. unfold canonical_key. rewrite Z.min_comm, Z.max_comm. reflexivity. Qed.

Section IdToIndexFacts.

Context {K : Type} `{Countable K}.

Lemma IdToIndex_has_true (c : IdToIndex K) (id : K) :
  IdToIndex_has c id = true <-> is_Some (to_idx c !! id).
Proof. unfold IdToIndex_has. apply bool_decide_eq_true. Qed.

Lemma IdToIndex_convert_keeps (c : IdToIndex K) (id id' : K) :
  is_Some (to_idx c !! id') ->
  is_Some (to_idx (fst (IdToIndex_convert c id)) !! id').
Proof.
  intros Hin. unfold IdToIndex_convert.
  destruct (to_idx c !! id) eqn:Hid; cbn; [ exact Hin |].
  rewrite lookup_insert. case_decide; [ eauto | exact Hin ].
Qed.

Lemma IdToIndex_convert_has (c : IdToIndex K) (id : K) :
  is_Some (to_idx (fst (IdToIndex_convert c id)) !! id).
Proof.
  unfold IdToIndex_convert.
  destruct (to_idx c !! id) eqn:Hid; cbn.
  - rewrite Hid. eauto.
  - rewrite lookup_insert_eq. eauto.
Qed.

End IdToIndexFacts.

Section Dedup.

Variable obsId : ObsKey -> string.
Variable phStaId : string -> ascii -> string.

(** The converter of observation keys after one call. *)
Lemma addObservation_converter (s : Solver) (a : AddObservationArgs) :
  _obsIdConverter (fst (addObservation obsId phStaId s a))
  = fst (IdToIndex_convert (_obsIdConverter s) (obsId (key_of a))).
Proof.
  unfold addObservation.
  destruct (IdToIndex_has (_obsIdConverter s) (obsId (key_of a))) eqn:Hhas.
  - cbn. apply IdToIndex_has_true in Hhas. destruct Hhas as [i Hi].
    unfold IdToIndex_convert. rewrite Hi. reflexivity.
  - destruct (IdToIndex_convert (_eventIdConverter s) (a_evId1 a)) as [evc1 i1].
    destruct (IdToIndex_convert evc1 (a_evId2 a)) as [evc2 i2].
    destruct (IdToIndex_convert (_phStaIdConverter s) _) as [phc ip].
    destruct (IdToIndex_convert (_obsIdConverter s) _) as [obc io].
    reflexivity.
Qed.

(** A key is present once a call with it has been made... *)
Lemma addObservation_present (s : Solver) (a : AddObservationArgs) :
  is_Some (to_idx (_obsIdConverter (fst (addObservation obsId phStaId s a))) !! obsId (key_of a)).
Proof. rewrite addObservation_converter. apply IdToIndex_convert_has. Qed.

(** ... and no later call removes it. *)
Lemma addObservation_keeps (s : Solver) (a : AddObservationArgs) (k : string) :
  is_Some (to_idx (_obsIdConverter s) !! k) ->
  is_Some (to_idx (_obsIdConverter (fst (addObservation obsId phStaId s a))) !! k).
Proof. rewrite addObservation_converter. apply IdToIndex_convert_keeps. Qed.

Lemma addObservations_keeps (calls : list AddObservationArgs) (s : Solver) (k : string) :
  is_Some (to_idx (_obsIdConverter s) !! k) ->
  is_Some (to_idx (_obsIdConverter (addObservations obsId phStaId s calls)) !! k).
Proof.
  revert s. unfold addObservations.
  induction calls as [| a calls IH]; intros s Hk; [ exact Hk |].
  cbn [fold_left]. apply IH, addObservation_keeps, Hk.
Qed.

Lemma addObservations_app (s : Solver) (l1 l2 : list AddObservationArgs) :
  addObservations obsId phStaId s (l1 ++ l2)
  = addObservations obsId phStaId (addObservations obsId phStaId s l1) l2.
Proof. unfold addObservations. apply fold_left_app. Qed.

(** A call on a present key is rejected and changes nothing. *)
Lemma addObservation_rejected (s : Solver) (b : AddObservationArgs) :
  is_Some (to_idx (_obsIdConverter s) !! obsId (key_of b)) ->
  addObservation obsId phStaId s b = (s, Some InvalidInput).
Proof.
  intros Hk. apply IdToIndex_has_true in Hk.
  unfold addObservation. rewrite Hk. reflexivity.
Qed.

(** A call on an absent key is accepted and stores its observation. *)
Lemma addObservation_accepted (s : Solver) (a : AddObservationArgs) :
  to_idx (_obsIdConverter s) !! obsId (key_of a) = None ->
  snd (addObservation obsId phStaId s a) = None
  /\ exists (i e1 e2 ph : Z),
       _observations (fst (addObservation obsId phStaId s a)) !! i
       = Some (mkObservation e1 e2 ph (a_diffTime a) (a_aPrioriWeight a) (a_isXcorr a)).
Proof.
  intros Hk. unfold addObservation.
  assert (Hhas : IdToIndex_has (_obsIdConverter s) (obsId (key_of a)) = false).
  { unfold IdToIndex_has. apply bool_decide_eq_false. rewrite Hk.
    intros [v Hv]. discriminate Hv. }
  rewrite Hhas.
  destruct (IdToIndex_convert (_eventIdConverter s) (a_evId1 a)) as [evc1 i1].
  destruct (IdToIndex_convert evc1 (a_evId2 a)) as [evc2 i2].
  destruct (IdToIndex_convert (_phStaIdConverter s) _) as [phc ip].
  destruct (IdToIndex_convert (_obsIdConverter s) _) as [obc io].
  split; [ reflexivity |].
  exists io, i1, i2, ip. cbn. apply lookup_insert_eq.
Qed.

(** C4: [addObservation] deduplicates by the canonical ordered key
    [(min(e1,e2), max(e1,e2), stationId, phase, isXcorr)]: in every
    sequence of calls, a call [b] whose arguments map to the key of an
    earlier call [a] is rejected as invalid input and leaves the store,
    and the whole solver, as it found it. *)
Theorem addObservation_dedup (s0 : Solver)
    (before between : list AddObservationArgs) (a b : AddObservationArgs) :
  key_of a = key_of b ->
  let s := addObservations obsId phStaId s0 (before ++ a :: between) in
  addObservation obsId phStaId s b = (s, Some InvalidInput)
  /\ _observations (fst (addObservation obsId phStaId s b)) = _observations s.
Proof.
  intros Hkey s.
  assert (Hrej : addObservation obsId phStaId s b = (s, Some InvalidInput)).
  { apply addObservation_rejected. unfold s.
    rewrite addObservations_app. cbn [addObservations fold_left].
    apply (addObservations_keeps between). rewrite <- Hkey.
    apply addObservation_present. }
  rewrite Hrej. split; reflexivity.
Qed.

End Dedup.

Lemma addObservation_dedup_witness :
  let s := addObservations obsId_example phStaId_example
             (Solver_new (mkCentroid 0 0 0) "LSQR")
             ([] ++ args_example 7 9 0%R :: [args_example 1 2 0%R]) in
  addObservation obsId_example phStaId_example s (args_example 9 7 1%R)
  = (s, Some InvalidInput)
  /\ _observations
       (fst (addObservation obsId_example phStaId_example s (args_example 9 7 1%R)))
     = _observations s.
Proof.
  apply (addObservation_dedup obsId_example phStaId_example
           (Solver_new (mkCentroid 0 0 0) "LSQR") []
           [args_example 1 2 0%R] (args_example 7 9 0%R) (args_example 9 7 1%R)).
  reflexivity.
Defined.

(* ===================================================================== *)
(** * The matrix-vector product, row by row *)
(* ===================================================================== *)

Lemma sum4_unfold (f : nat -> R) :
  sum4 f = (f 0%nat + (f 1%nat + (f 2%nat + (f 3%nat + 0))))%R.
Proof. reflexivity. Qed.

Lemma matvec_length (dd : DDSystem) (x : list R) :
  length (matvec dd x) = Z.to_nat (numRowsG dd).
Proof. unfold matvec. rewrite length_map, length_seq. reflexivity. Qed.

Lemma matvec_lookup (dd : DDSystem) (x : list R) (r : nat) :
  Z.of_nat r < numRowsG dd ->
  matvec dd x !! r = Some (row_product dd x r).
Proof.
  intros Hr. unfold matvec. rewrite list_lookup_fmap.
  rewrite lookup_seq_lt by lia. reflexivity.
Qed.

(** The offsets [k = 0 .. 3] inside the block of an event. *)
Ltac small_offsets :=
  change (Z.of_nat 0) with 0; change (Z.of_nat 1) with 1;
  change (Z.of_nat 2) with 2; change (Z.of_nat 3) with 3;
  rewrite ?Z.add_0_r.

Lemma event_term_free (dd : DDSystem) (x : list R) (e s : Z) :
  e <> -1 ->
  event_term dd x e s
  = (g0 (G_at dd e s) * nth_R x (Z.to_nat (e * 4))
     + g1 (G_at dd e s) * nth_R x (Z.to_nat (e * 4 + 1))
     + g2 (G_at dd e s) * nth_R x (Z.to_nat (e * 4 + 2))
     + 1 * nth_R x (Z.to_nat (e * 4 + 3)))%R.
Proof.
  intros He. unfold event_term.
  destruct (Z.eqb_spec e (-1)) as [Heq | _]; [ contradiction |].
  rewrite sum4_unfold. cbn [coef vec4_get]. small_offsets. lra.
Qed.

(** C1: row [r] of [y = G·x].  For an observation row with event indices
    [(e1, e2)] and phase-station [s], [y[r] = W[r]·(T e1 − T e2)], where
    the term [T e] of an event is dropped ([0]) when [e = -1] and is
    otherwise [Σ_k G[e,s][k]·x[4e+k]] with coefficient [1] at [k = 3],
    so that [x[4·e2+3]] enters with [-1]; for a constraint row of event
    [e1], [y[r] = W[r]·x[4·e1+3]].  When the stored 4-vector is
    [(dx, dy, dz, 1)] the term is the plain sum over the four stored
    components. *)
Theorem matvec_row_formula (dd : DDSystem) (x : list R) (r : nat)
    (w : R) (e1 e2 s : Z) :
  Z.of_nat r < numRowsG dd ->
  W dd !! r = Some w ->
  evByObs dd 0 !! r = Some e1 ->
  evByObs dd 1 !! r = Some e2 ->
  phStaByObs dd !! r = Some s ->
  let xat := fun i : Z => nth_R x (Z.to_nat i) in
  let T := fun e : Z =>
             if e =? -1 then 0%R
             else (g0 (G_at dd e s) * xat (e * 4)%Z + g1 (G_at dd e s) * xat (e * 4 + 1)%Z
                   + g2 (G_at dd e s) * xat (e * 4 + 2)%Z + 1 * xat (e * 4 + 3)%Z)%R in
  (Z.of_nat r < nObs dd -> matvec dd x !! r = Some (w * (T e1 - T e2))%R)
  /\ (nObs dd <= Z.of_nat r -> e1 <> -1 ->
      matvec dd x !! r = Some (w * xat (e1 * 4 + 3)%Z)%R)
  /\ (forall e : Z, e <> -1 -> g3 (G_at dd e s) = 1%R ->
      T e = sum4 (fun k => (vec4_get (G_at dd e s) k * xat (e * 4 + Z.of_nat k)%Z)%R))
  /\ T (-1) = 0%R.
Proof.
  intros Hr HW He1 He2 Hs xat T. cbn [evByObs] in He1, He2.
  assert (HT : forall e, T e = event_term dd x e s).
  { intros e. unfold T, xat. destruct (Z.eqb_spec e (-1)) as [-> | Hne].
    - reflexivity.
    - rewrite event_term_free by exact Hne. reflexivity. }
  rewrite (matvec_lookup dd x r Hr).
  unfold row_product, nth_R. rewrite HW, He1, He2, Hs. cbn [default from_option]. unfold Datatypes.id.
  split; [| split; [| split ] ].
  - intros Hobs. apply Z.ltb_lt in Hobs. rewrite Hobs, !HT. reflexivity.
  - intros Hcon Hne. apply Z.ltb_ge in Hcon. rewrite Hcon.
    destruct (Z.eqb_spec e1 (-1)) as [Heq | _]; [ contradiction | reflexivity ].
  - intros e Hne Hg3. unfold T, xat.
    destruct (Z.eqb_spec e (-1)) as [Heq | _]; [ contradiction |].
    rewrite sum4_unfold. cbn [vec4_get]. small_offsets. rewrite Hg3. lra.
  - reflexivity.
Qed.

Lemma matvec_row_formula_witness :
  matvec dd_example x_example !! 0%nat
  = Some (2 * ((1 * 1 + 0 * 2 + 0 * 3 + 1 * 4) - (0 * 5 + 1 * 6 + 0 * 7 + 1 * 8)))%R.
Proof.
  destruct (matvec_row_formula dd_example x_example 0 2 0 1 0) as [Hobs _];
    [ cbn; lia | reflexivity .. | ].
  apply Hobs. cbn. lia.
Defined.

(* ===================================================================== *)
(** * Column normalisation *)
(* ===================================================================== *)

Lemma nth_R_scale (a : R) (x : list R) (i : nat) :
  nth_R (map (Rmult a) x) i = (a * nth_R x i)%R.
Proof.
  unfold nth_R. rewrite list_lookup_fmap.
  destruct (x !! i); cbn; unfold Datatypes.id; lra.
Qed.

Lemma event_term_scale (a : R) (dd : DDSystem) (x : list R) (e s : Z) :
  event_term dd (map (Rmult a) x) e s = (a * event_term dd x e s)%R.
Proof.
  unfold event_term. destruct (e =? -1); [ lra |].
  rewrite !sum4_unfold, !nth_R_scale. ring.
Qed.

Lemma row_product_scale (a : R) (dd : DDSystem) (x : list R) (r : nat) :
  row_product dd (map (Rmult a) x) r = (a * row_product dd x r)%R.
Proof.
  unfold row_product. rewrite !event_term_scale, nth_R_scale.
  destruct (Z.of_nat r <? nObs dd); [ ring |].
  destruct (default (-1) (evByObs0 dd !! r) =? -1); ring.
Qed.

(** The product is homogeneous. *)
Lemma matvec_scale (a : R) (dd : DDSystem) (x : list R) :
  matvec dd (map (Rmult a) x) = map (Rmult a) (matvec dd x).
Proof.
  unfold matvec. rewrite map_map. apply map_ext.
  intros r. apply row_product_scale.
Qed.

(** The product does not read the scalers. *)
Lemma matvec_with_L2NScaler (dd : DDSystem) (s x : list R) :
  matvec (with_L2NScaler dd s) x = matvec dd x.
Proof. reflexivity. Qed.

Lemma sum_squares_nonneg (v : list R) :
  (0 <= sum_R (map (fun b => b * b) v))%R.
Proof.
  unfold sum_R. induction v as [| b v IH]; cbn; [ lra |].
  pose proof (Rle_0_sqr b) as Hb. unfold Rsqr in Hb. lra.
Qed.

Lemma sum_squares_scale (a : R) (v : list R) :
  sum_R (map (fun b => (b * b)%R) (map (Rmult a) v))
  = (a * a * sum_R (map (fun b => b * b) v))%R.
Proof.
  unfold sum_R. induction v as [| b v IH]; cbn; [ ring |].
  rewrite IH. ring.
Qed.

Lemma norm2_nonneg (v : list R) : (0 <= norm2 v)%R.
Proof. unfold norm2. apply sqrt_pos. Qed.

Lemma norm2_scale (a : R) (v : list R) :
  norm2 (map (Rmult a) v) = (Rabs a * norm2 v)%R.
Proof.
  unfold norm2. rewrite sum_squares_scale.
  rewrite sqrt_mult; [ | apply Rle_0_sqr | apply sum_squares_nonneg ].
  fold (Rsqr a). rewrite sqrt_Rsqr_abs. reflexivity.
Qed.

Lemma unit_vec_length (n c : nat) : length (unit_vec n c) = n.
Proof. unfold unit_vec. rewrite length_map, length_seq. reflexivity. Qed.

(** Dividing [e_c] by the scalers scales it by the inverse of scaler
    [c]. *)
Lemma descale_unit_vec (s : list R) (n c : nat) :
  length s = n ->
  zip_with Rdiv (unit_vec n c) s = map (Rmult (/ nth_R s c)) (unit_vec n c).
Proof.
  intros Hlen. apply list_eq. intros j.
  rewrite lookup_zip_with, list_lookup_fmap. unfold unit_vec.
  rewrite list_lookup_fmap.
  destruct (decide (j < n)%nat) as [Hj | Hj].
  - rewrite lookup_seq_lt by exact Hj.
    destruct (lookup_lt_is_Some_2 s j) as [v Hv]; [ lia |].
    rewrite Hv. cbn. f_equal.
    destruct (Nat.eqb_spec j c) as [-> | Hne].
    + unfold nth_R. rewrite Hv. cbn. unfold Rdiv. ring.
    + unfold Rdiv. ring.
  - rewrite lookup_seq_ge by lia. reflexivity.
Qed.

Lemma computeL2NScaler_length (dd : DDSystem) :
  length (computeL2NScaler dd) = Z.to_nat (numColsG dd).
Proof. unfold computeL2NScaler. rewrite length_map, length_seq. reflexivity. Qed.

Lemma computeL2NScaler_lookup (dd : DDSystem) (c : nat) :
  (c < Z.to_nat (numColsG dd))%nat ->
  computeL2NScaler dd !! c = Some (scaler_of dd c).
Proof.
  intros Hc. unfold computeL2NScaler. rewrite list_lookup_fmap.
  rewrite lookup_seq_lt by exact Hc. reflexivity.
Qed.

(** The norm of a normalised column. *)
Lemma normalized_column_norm (dd : DDSystem) (c : nat) :
  (c < Z.to_nat (numColsG dd))%nat ->
  norm2 (matvec_normalized (normalize dd) (unit_vec (Z.to_nat (numColsG dd)) c))
  = (if Req_dec_T (norm2 (column dd c)) 0 then 0 else 1)%R.
Proof.
  intros Hc. unfold matvec_normalized, normalize, descale.
  rewrite matvec_with_L2NScaler. cbn [L2NScaler with_L2NScaler].
  rewrite descale_unit_vec by apply computeL2NScaler_length.
  rewrite matvec_scale, norm2_scale. fold (column dd c).
  unfold nth_R. rewrite computeL2NScaler_lookup by exact Hc.
  cbn [default from_option]. unfold Datatypes.id, scaler_of.
  pose proof (norm2_nonneg (column dd c)) as Hpos.
  destruct (Req_dec_T (norm2 (column dd c)) 0) as [Hz | Hnz].
  - rewrite Hz. ring.
  - rewrite Rabs_inv, Rabs_right by lra. field. exact Hnz.
Qed.

(** C6: with column normalisation, [L2NScaler[c]] is the L2 norm of
    column [c] of [G], and [1] where that norm is [0]; the norm of every
    column of the effective matrix [G·diag(1/L2NScaler)] is then [0] or
    [1]; and when [m'] solves the normalised system, the returned
    [m = m' / L2NScaler] solves the original one. *)
Theorem column_normalization (dd : DDSystem) (c : nat) :
  (c < Z.to_nat (numColsG dd))%nat ->
  let dd' := normalize dd in
  let n := Z.to_nat (numColsG dd) in
  let N := norm2 (column dd c) in
  (N = 0%R -> L2NScaler dd' !! c = Some 1%R)
  /\ (N <> 0%R -> L2NScaler dd' !! c = Some N)
  /\ (norm2 (matvec_normalized dd' (unit_vec n c)) = 0%R
      \/ norm2 (matvec_normalized dd' (unit_vec n c)) = 1%R)
  /\ (forall m' rhs : list R,
        matvec_normalized dd' m' = rhs ->
        matvec dd (descale dd' m') = rhs
        /\ (forall (j : nat) (v : R),
              (j < n)%nat -> m' !! j = Some v ->
              descale dd' m' !! j = Some (v / nth_R (L2NScaler dd') j)%R)).
Proof.
  intros Hc dd' n N.
  assert (Hs : L2NScaler dd' !! c = Some (scaler_of dd c)).
  { apply computeL2NScaler_lookup, Hc. }
  split; [| split; [| split ] ].
  - intros HN. rewrite Hs. unfold scaler_of. fold N.
    destruct (Req_dec_T N 0); [ reflexivity | contradiction ].
  - intros HN. rewrite Hs. unfold scaler_of. fold N.
    destruct (Req_dec_T N 0); [ contradiction | reflexivity ].
  - unfold dd', n. rewrite normalized_column_norm by exact Hc.
    destruct (Req_dec_T (norm2 (column dd c)) 0); [ left | right ]; reflexivity.
  - intros m' rhs Hsolve. split.
    + rewrite <- Hsolve. unfold matvec_normalized, dd', normalize.
      rewrite matvec_with_L2NScaler. reflexivity.
    + intros j v Hj Hv. unfold descale. rewrite lookup_zip_with, Hv.
      destruct (lookup_lt_is_Some_2 (L2NScaler dd') j) as [sj Hsj].
      { unfold dd', normalize. cbn [L2NScaler with_L2NScaler].
        rewrite computeL2NScaler_length. exact Hj. }
      unfold nth_R. rewrite Hsj. reflexivity.
Qed.

Lemma column_normalization_witness :
  norm2 (matvec_normalized (normalize dd_example) (unit_vec 8 0)) = 0%R
  \/ norm2 (matvec_normalized (normalize dd_example) (unit_vec 8 0)) = 1%R.
Proof.
  destruct (column_normalization dd_example 0) as (_ & _ & Hnorm & _);
    [ cbn; lia | exact Hnorm ].
Defined.

(* ===================================================================== *)
(** * Residual weights *)
(* ===================================================================== *)

Lemma biweight_inside (c ri : R) :
  (Rabs ri < c)%R -> biweight c ri = ((1 - (ri / c) ^ 2) ^ 2)%R.
Proof. intros Hin. unfold biweight. destruct (Rlt_dec (Rabs ri) c); [ reflexivity | contradiction ]. Qed.

Lemma biweight_outside (c ri : R) :
  ~ (Rabs ri < c)%R -> biweight c ri = 0%R.
Proof. intros Hout. unfold biweight. destruct (Rlt_dec (Rabs ri) c); [ contradiction | reflexivity ]. Qed.

(** A biweight is a weight: it lies between [0] and [1]. *)
Lemma biweight_range (c ri : R) : (0 <= biweight c ri <= 1)%R.
Proof.
  unfold biweight. destruct (Rlt_dec (Rabs ri) c) as [Hin | _]; [| lra ].
  assert (Hc : (0 < c)%R) by (pose proof (Rabs_pos ri); lra).
  assert (Hq : (0 <= (ri / c) ^ 2 < 1)%R).
  { assert (Habs : (Rabs (ri / c) < 1)%R).
    { unfold Rdiv. rewrite Rabs_mult, Rabs_inv, (Rabs_right c) by lra.
      apply Rmult_lt_reg_r with (r := c); [ exact Hc |].
      field_simplify; lra. }
    replace ((ri / c) ^ 2)%R with (Rabs (ri / c) * Rabs (ri / c))%R.
    - pose proof (Rabs_pos (ri / c)). nra.
    - rewrite <- Rabs_mult. rewrite Rabs_right; [ ring | nra ]. }
  nra.
Qed.

(** C5: for a parameter [α] in [(0, 1]], [computeResidualWeights] gives
    every residual its Tukey biweight for the cutoff [c = α · MAD · 4.685]
    with [MAD = 1.4826 · median(|r_i − median(r)|)], that is
    [(1 − (r_i/c)²)²] when [|r_i| < c] and [0] otherwise; for [α = 0] it
    gives every residual the weight [1]. *)
Theorem computeResidualWeights_spec (residuals : list R) (alpha : R) :
  let weights := computeResidualWeights residuals alpha in
  let mad :=
    (14826 / 10000
     * median (map (fun ri => Rabs (ri - median residuals)) residuals))%R in
  let c := (alpha * mad * (4685 / 1000))%R in
  length weights = length residuals
  /\ ((0 < alpha <= 1)%R ->
      forall (i : nat) (ri : R), residuals !! i = Some ri ->
        exists wi : R,
          weights !! i = Some wi
          /\ ((Rabs ri < c)%R -> wi = ((1 - (ri / c) ^ 2) ^ 2)%R)
          /\ (~ (Rabs ri < c)%R -> wi = 0%R)
          /\ (0 <= wi <= 1)%R)
  /\ (alpha = 0%R ->
      forall (i : nat) (ri : R), residuals !! i = Some ri -> weights !! i = Some 1%R).
Proof.
  intros weights mad c. unfold weights, computeResidualWeights.
  destruct (Req_dec_T alpha 0) as [Hz | Hnz].
  - split; [ apply length_map |]. split.
    + intros [Hpos _]. lra.
    + intros _ i ri Hi. rewrite list_lookup_fmap, Hi. reflexivity.
  - split; [ apply length_map |]. split.
    + intros _ i ri Hi. exists (biweight c ri). split.
      * rewrite list_lookup_fmap, Hi. reflexivity.
      * split; [ apply biweight_inside |].
        split; [ apply biweight_outside | apply biweight_range ].
    + intros Hz. contradiction.
Qed.

(** A sample whose majority is identical: the median of the absolute
    deviations, hence the MAD and the cutoff, is [0], and no residual
    lies strictly inside the cutoff. *)
Lemma insert_sorted_le (a b : R) (l : list R) :
  (a <= b)%R -> insert_sorted a (b :: l) = a :: b :: l.
Proof. intros Hab. cbn. destruct (Rle_dec a b); [ reflexivity | contradiction ]. Qed.

Lemma median_majority_zero : median [0; 0; 0; 0; 0; 100]%R = 0%R.
Proof.
  unfold median, sort_R. cbn [foldr].
  change (insert_sorted 100 []) with [100%R].
  rewrite !insert_sorted_le by lra.
  cbn. unfold nth_R. cbn. lra.
Qed.

Lemma MAD_majority_zero : MAD [0; 0; 0; 0; 0; 100]%R = 0%R.
Proof.
  unfold MAD. rewrite median_majority_zero. cbn [map].
  rewrite !Rminus_0_r, Rabs_R0, (Rabs_right 100) by lra.
  rewrite median_majority_zero. lra.
Qed.

Lemma weights_majority_zero :
  computeResidualWeights [0; 0; 0; 0; 0; 100]%R 1 = [0; 0; 0; 0; 0; 0]%R.
Proof.
  unfold computeResidualWeights.
  destruct (Req_dec_T 1 0) as [H01 | _]; [ lra |].
  unfold cutoff. rewrite MAD_majority_zero.
  replace (1 * 0 * (4685 / 1000))%R with 0%R by lra.
  cbn [map]. unfold biweight.
  rewrite Rabs_R0, (Rabs_right 100) by lra.
  destruct (Rlt_dec 0 0); [ lra |]. destruct (Rlt_dec 100 0); [ lra | reflexivity ].
Qed.

Lemma weights_disabled :
  computeResidualWeights [0; 0; 0; 0; 0; 100]%R 0 = [1; 1; 1; 1; 1; 1]%R.
Proof.
  unfold computeResidualWeights.
  destruct (Req_dec_T 0 0) as [_ | Hne]; [ reflexivity | contradiction ].
Qed.

(* ===================================================================== *)
(** * The outer loop: a failed event stays fixed *)
(* ===================================================================== *)

Section DriverFacts.

Variable compute : R -> R -> R -> string -> string -> TTOutcome.
Variable phSta_of : Z -> string * string.
Variable obs : list Observation.
Variable solve_and_apply : PackedRows -> (Z -> R * R * R) -> Z -> R * R * R.

Lemma outer_iteration_rows (st : DriverState) :
  snd (outer_iteration compute phSta_of obs solve_and_apply st) = pack obs (fixed (fst (outer_iteration compute phSta_of obs solve_and_apply st))).
Proof. reflexivity. Qed.

Lemma outer_iteration_fixed_mono (st : DriverState) :
  fixed st ⊆ fixed (fst (outer_iteration compute phSta_of obs solve_and_apply st)).
Proof. cbn. apply union_subseteq_l. Qed.

Lemma outer_iteration_fixes_failing (st : DriverState) (e : Z) :
  e ∈ failing_events compute phSta_of obs (hypo st) ->
  e ∈ fixed (fst (outer_iteration compute phSta_of obs solve_and_apply st)).
Proof.
  intros He. cbn. apply elem_of_union. right.
  apply elem_of_list_to_set. exact He.
Qed.

Lemma state_at_fixed_mono (j : nat) (st : DriverState) :
  fixed st ⊆ fixed (state_at compute phSta_of obs solve_and_apply j st).
Proof.
  revert st. induction j as [| j IH]; intros st; [ reflexivity |].
  cbn. etransitivity; [ apply outer_iteration_fixed_mono | apply IH ].
Qed.

Lemma state_at_add (i k : nat) (st : DriverState) :
  state_at compute phSta_of obs solve_and_apply (i + k) st = state_at compute phSta_of obs solve_and_apply k (state_at compute phSta_of obs solve_and_apply i st).
Proof.
  revert st. induction i as [| i IH]; intros st; [ reflexivity |].
  cbn. apply IH.
Qed.

Lemma state_at_succ (i : nat) (st : DriverState) :
  state_at compute phSta_of obs solve_and_apply (S i) st = fst (outer_iteration compute phSta_of obs solve_and_apply (state_at compute phSta_of obs solve_and_apply i st)).
Proof.
  replace (S i) with (i + 1)%nat by lia. rewrite state_at_add. reflexivity.
Qed.

Lemma outer_loop_length (n : nat) (st : DriverState) :
  length (fst (outer_loop compute phSta_of obs solve_and_apply n st)) = n.
Proof.
  revert st. induction n as [| n IH]; intros st; [ reflexivity |].
  specialize (IH (fst (outer_iteration compute phSta_of obs solve_and_apply st))). cbn.
  destruct (outer_loop _ _ _ _ n _) as [tr fin]. cbn in *. lia.
Qed.

Lemma outer_loop_lookup (n j : nat) (st : DriverState) :
  (j < n)%nat ->
  fst (outer_loop compute phSta_of obs solve_and_apply n st) !! j = Some (snd (outer_iteration compute phSta_of obs solve_and_apply (state_at compute phSta_of obs solve_and_apply j st))).
Proof.
  revert j st. induction n as [| n IH]; intros j st Hj; [ lia |].
  cbn.
  destruct j as [| j].
  - destruct (outer_loop _ _ _ _ n _) as [tr fin]. reflexivity.
  - specialize (IH j (fst (outer_iteration compute phSta_of obs solve_and_apply st)) ltac:(lia)).
    destruct (outer_loop _ _ _ _ n _) as [tr fin]. exact IH.
Qed.

Lemma pack_fixed_rows (fx : gset Z) (r : nat) (o : Observation) (e : Z) :
  e ∈ fx -> obs !! r = Some o ->
  (ev1Idx o = e -> p_evByObs0 (pack obs fx) !! r = Some (-1))
  /\ (ev2Idx o = e -> p_evByObs1 (pack obs fx) !! r = Some (-1)).
Proof.
  intros He Ho. cbn.
  split; intros Heq; rewrite list_lookup_fmap, Ho; cbn; unfold pack_index;
    rewrite Heq; rewrite decide_True by exact He; reflexivity.
Qed.

(** C7: a [compute] request either returns the quadruple
    [(travelTime, takeoffAzimuth, takeoffDip, srcVelocity)] or signals a
    failure, and the failure is recoverable: when the partial derivatives
    of event [e] cannot be computed at outer iteration [i], the loop still
    runs all its [n] iterations, and in the system packed by iteration [i]
    and by every later one the index of [e] is [-1] in all the rows that
    reference it. *)
Theorem failed_event_stays_fixed (n i : nat) (st0 : DriverState) (e : Z) :
  (i < n)%nat ->
  e ∈ failing_events compute phSta_of obs (hypo (state_at compute phSta_of obs solve_and_apply i st0)) ->
  (forall (lat lon depth : R) (sta ph : string),
      (exists q : TravelTimeInfo, compute lat lon depth sta ph = TTValue q)
      \/ compute lat lon depth sta ph = TTFailure)
  /\ length (fst (outer_loop compute phSta_of obs solve_and_apply n st0)) = n
  /\ (forall (j : nat) (rows : PackedRows),
        (i <= j)%nat -> fst (outer_loop compute phSta_of obs solve_and_apply n st0) !! j = Some rows ->
        forall (r : nat) (o : Observation), obs !! r = Some o ->
          (ev1Idx o = e -> p_evByObs0 rows !! r = Some (-1))
          /\ (ev2Idx o = e -> p_evByObs1 rows !! r = Some (-1))).
Proof.
  intros Hi Hfail. split; [| split ].
  - intros lat lon depth sta ph.
    destruct (compute lat lon depth sta ph) as [q |]; [ left; exists q | right ]; reflexivity.
  - apply outer_loop_length.
  - intros j rows Hij Hrows r o Ho.
    assert (Hj : (j < n)%nat).
    { apply lookup_lt_Some in Hrows. rewrite outer_loop_length in Hrows. exact Hrows. }
    rewrite outer_loop_lookup in Hrows by exact Hj.
    assert (Hpack : rows = snd (outer_iteration compute phSta_of obs solve_and_apply
                                  (state_at compute phSta_of obs solve_and_apply j st0)))
      by congruence.
    rewrite Hpack, outer_iteration_rows.
    apply pack_fixed_rows; [| exact Ho ].
    rewrite <- state_at_succ.
    replace (S j) with (S i + (j - i))%nat by lia. rewrite state_at_add.
    apply state_at_fixed_mono. rewrite state_at_succ.
    apply outer_iteration_fixes_failing, Hfail.
Qed.

End DriverFacts.

Lemma failed_event_stays_fixed_witness :
  (forall (lat lon depth : R) (sta ph : string),
      (exists q : TravelTimeInfo, compute_example lat lon depth sta ph = TTValue q)
      \/ compute_example lat lon depth sta ph = TTFailure)
  /\ length (fst (outer_loop compute_example phSta_of_example obs_example
                             solve_and_apply_example 3 st0_example)) = 3%nat
  /\ (forall (j : nat) (rows : PackedRows),
        (0 <= j)%nat ->
        fst (outer_loop compute_example phSta_of_example obs_example
                        solve_and_apply_example 3 st0_example) !! j = Some rows ->
        forall (r : nat) (o : Observation), obs_example !! r = Some o ->
          (ev1Idx o = 1 -> p_evByObs0 rows !! r = Some (-1))
          /\ (ev2Idx o = 1 -> p_evByObs1 rows !! r = Some (-1))).
Proof.
  apply (failed_event_stays_fixed compute_example phSta_of_example obs_example
           solve_and_apply_example 3 0 st0_example 1).
  - lia.
  - cbn. apply list_elem_of_further, list_elem_of_here.
Defined.

(* ===================================================================== *)
(** * DDSystem: more on the constructor and the destructor *)
(* ===================================================================== *)

Lemma uadd_range (a b : Z) : is_unsigned (uadd a b).
Proof. apply to_unsigned_range. Qed.

Lemma umul_range (a b : Z) : is_unsigned (umul a b).
Proof. apply to_unsigned_range. Qed.

Lemma new_array_lookup_is_Some {A : Type} (n : Z) (junk : nat -> A) (i : nat) :
  0 <= n -> (is_Some (new_array n junk !! i) <-> Z.of_nat i < n).
Proof.
  intros Hn. rewrite lookup_lt_is_Some, length_new_array. lia.
Qed.

(** X1: whatever the arguments, and also when the [unsigned] sum or
    product of the constructor wraps, the valid indices of the five row
    arrays are exactly the indices below [numRowsG] and those of [m] and
    [L2NScaler] exactly the indices below [numColsG]. *)
Theorem DDSystem_new_index_bounds (u : Uninit) (a b c t : Z) (i : nat) :
  let dd := DDSystem_new u a b c t in
  (is_Some (W dd !! i) <-> Z.of_nat i < numRowsG dd)
  /\ (is_Some (d dd !! i) <-> Z.of_nat i < numRowsG dd)
  /\ (is_Some (evByObs dd 0 !! i) <-> Z.of_nat i < numRowsG dd)
  /\ (is_Some (evByObs dd 1 !! i) <-> Z.of_nat i < numRowsG dd)
  /\ (is_Some (phStaByObs dd !! i) <-> Z.of_nat i < numRowsG dd)
  /\ (is_Some (m dd !! i) <-> Z.of_nat i < numColsG dd)
  /\ (is_Some (L2NScaler dd !! i) <-> Z.of_nat i < numColsG dd).
Proof.
  intros dd. unfold dd, DDSystem_new, evByObs.
  cbn [numRowsG numColsG W m d L2NScaler evByObs0 evByObs1 phStaByObs].
  pose proof (uadd_range a t) as [Hr _]. pose proof (umul_range b 4) as [Hc _].
  repeat split; apply new_array_lookup_is_Some; assumption.
Qed.

(** X2: the number of columns is always a whole number of
    [(x, y, z, t)] blocks: [numColsG], and with it the length of [m] and
    of [L2NScaler], is a multiple of 4 whatever [nEvts] is, also when
    [nEvts * 4] wraps; and both counts are values of type [unsigned]. *)
Theorem DDSystem_new_column_blocks (u : Uninit) (a b c t : Z) :
  let dd := DDSystem_new u a b c t in
  numColsG dd mod 4 = 0
  /\ Z.of_nat (length (m dd)) mod 4 = 0
  /\ Z.of_nat (length (L2NScaler dd)) mod 4 = 0
  /\ is_unsigned (numColsG dd)
  /\ is_unsigned (numRowsG dd).
Proof.
  intros dd. unfold dd, DDSystem_new.
  cbn [numRowsG numColsG m L2NScaler].
  pose proof (umul_range b 4) as Hc. pose proof (uadd_range a t) as Hr.
  assert (Hblocks : umul b 4 mod 4 = 0).
  { unfold umul, to_unsigned. rewrite Z.mod_mod_divide.
    - apply Z.mod_mul. lia.
    - exists 1073741824. reflexivity. }
  destruct Hc as [Hc0 Hc1].
  rewrite !Zlength_new_array by exact Hc0.
  repeat split; try assumption; apply Hr.
Qed.

(** X3: for [unsigned] arguments the sizes of the constructed system
    are the unbounded [nObs + nTTconstraints], [4·nEvts] and
    [nEvts·nPhStas] exactly when none of the three exceeds the range of
    [unsigned]; and all the observation rows exist
    ([nObs <= numRowsG]) exactly when the row sum does not wrap. *)
Theorem DDSystem_sizes_exact_iff (u : Uninit) (a b c t : Z) :
  is_unsigned a -> is_unsigned b -> is_unsigned c -> is_unsigned t ->
  (sizes_exact u a b c t
   <-> a + t < UINT_MOD /\ 4 * b < UINT_MOD /\ b * c < UINT_MOD)
  /\ (nObs (DDSystem_new u a b c t) <= numRowsG (DDSystem_new u a b c t)
      <-> a + t < UINT_MOD).
Proof.
  unfold is_unsigned. intros Ha Hb Hc Ht.
  pose proof (DDSystem_new_sizes_wrapped u a b c t) as Hw.
  unfold sizes_wrapped, sizes_are in Hw.
  destruct Hw as (Hrows & _ & _ & _ & _ & _ & Hcols & _ & _ & Hvecs).
  assert (Hpos : 0 < UINT_MOD) by (rewrite UINT_MOD_value; lia).
  pose proof (Z.mod_pos_bound (a + t) UINT_MOD Hpos) as Hr.
  pose proof (Z.mod_pos_bound (4 * b) UINT_MOD Hpos) as Hcb.
  pose proof (Z.mod_pos_bound (b * c) UINT_MOD Hpos) as Hvb.
  split.
  - split.
    + unfold sizes_exact, sizes_are.
      intros (Hrows' & _ & _ & _ & _ & _ & Hcols' & _ & _ & Hvecs').
      rewrite Hrows in Hrows'. rewrite Hcols in Hcols'. rewrite Hvecs in Hvecs'.
      lia.
    + intros (H1 & H2 & H3).
      pose proof (DDSystem_new_sizes_wrapped u a b c t) as Hw.
      unfold sizes_wrapped in Hw. unfold sizes_exact.
      rewrite (Z.mod_small (a + t)) in Hw by lia.
      rewrite (Z.mod_small (4 * b)) in Hw by lia.
      rewrite (Z.mod_small (b * c)) in Hw by nia.
      exact Hw.
  - rewrite Hrows. cbn [nObs DDSystem_new]. split.
    + intros Hle. destruct (Z_lt_le_dec (a + t) UINT_MOD) as [Hlt | Hge]; [ exact Hlt |].
      assert (Hmod : (a + t) mod UINT_MOD = a + t - UINT_MOD).
      { symmetry. apply Z.mod_unique with (q := 1); lia. }
      lia.
    + intros Hlt. rewrite Z.mod_small by lia. lia.
Qed.

Lemma DDSystem_sizes_exact_iff_witness :
  (sizes_exact zero_uninit 3 2 5 2
   <-> 3 + 2 < UINT_MOD /\ 4 * 2 < UINT_MOD /\ 2 * 5 < UINT_MOD)
  /\ (nObs (DDSystem_new zero_uninit 3 2 5 2)
      <= numRowsG (DDSystem_new zero_uninit 3 2 5 2)
      <-> 3 + 2 < UINT_MOD).
Proof.
  apply (DDSystem_sizes_exact_iff zero_uninit 3 2 5 2);
    unfold is_unsigned; rewrite UINT_MOD_value; lia.
Defined.

(** X4: with the fourth argument left to its default, the row count
    cannot wrap: for every [unsigned] [nObs] the system has exactly
    [nObs] rows, no constraint row, and row arrays of that length. *)
Theorem DDSystem_new3_rows (u : Uninit) (a b c : Z) :
  is_unsigned a ->
  let dd := DDSystem_new3 u a b c in
  nTTconstraints dd = 0
  /\ numRowsG dd = a
  /\ numRowsG dd = nObs dd
  /\ Z.of_nat (length (W dd)) = a
  /\ Z.of_nat (length (d dd)) = a
  /\ Z.of_nat (length (evByObs dd 0)) = a
  /\ Z.of_nat (length (evByObs dd 1)) = a
  /\ Z.of_nat (length (phStaByObs dd)) = a.
Proof.
  intros Ha dd.
  pose proof (DDSystem_new_sizes_wrapped u a b c 0) as Hw.
  unfold sizes_wrapped, sizes_are in Hw.
  rewrite Z.add_0_r in Hw. unfold is_unsigned in Ha.
  rewrite (Z.mod_small a) in Hw by exact Ha.
  destruct Hw as (Hrows & HW & Hd & He0 & He1 & Hph & _).
  unfold dd, DDSystem_new3. repeat split; assumption.
Qed.

Lemma DDSystem_new3_rows_witness :
  let dd := DDSystem_new3 zero_uninit 4294967295 1 1 in
  nTTconstraints dd = 0
  /\ numRowsG dd = 4294967295
  /\ numRowsG dd = nObs dd
  /\ Z.of_nat (length (W dd)) = 4294967295
  /\ Z.of_nat (length (d dd)) = 4294967295
  /\ Z.of_nat (length (evByObs dd 0)) = 4294967295
  /\ Z.of_nat (length (evByObs dd 1)) = 4294967295
  /\ Z.of_nat (length (phStaByObs dd)) = 4294967295.
Proof.
  apply (DDSystem_new3_rows zero_uninit 4294967295 1 1).
  unfold is_unsigned. rewrite UINT_MOD_value. lia.
Defined.

Lemma heap_run_app (ops1 ops2 : list HeapOp) (live live1 : list DDArray) :
  heap_run ops1 live = inr live1 ->
  heap_run (ops1 ++ ops2) live = heap_run ops2 live1.
Proof.
  revert live. induction ops1 as [| op ops1 IH]; intros live Hrun; cbn in *.
  - injection Hrun as ->. reflexivity.
  - destruct (heap_step live op) as [e | live']; [ discriminate Hrun |].
    apply IH, Hrun.
Qed.

(** X5: the destructor deletes exactly the arrays the constructor
    allocated, each of them once: the constructor never overwrites a
    pointer that owns an array, all eight arrays are owned after it, and
    after the destructor the object owns nothing.  A destructor body run
    a second time would delete an array that is no longer owned, and a
    constructor body run a second time would leak the first [W]. *)
Theorem DDSystem_ctor_dtor_balanced :
  (exists live : list DDArray,
      heap_run DDSystem_ctor_body [] = inr live
      /\ NoDup live
      /\ (forall a : DDArray, a ∈ live)
      /\ heap_run DDSystem_dtor_body live = inr [])
  /\ heap_run (DDSystem_ctor_body ++ DDSystem_dtor_body) [] = inr []
  /\ heap_run (DDSystem_ctor_body ++ DDSystem_dtor_body ++ DDSystem_dtor_body) []
     = inl (BadDelete ArrPhSta)
  /\ heap_run (DDSystem_ctor_body ++ DDSystem_ctor_body) [] = inl (Leaked ArrW).
Proof.
  assert (Hctor : heap_run DDSystem_ctor_body []
                  = inr [ArrPhSta; ArrEv1; ArrEv0; ArrL2NScaler; ArrD; ArrM; ArrG; ArrW])
    by reflexivity.
  assert (Hdtor : heap_run DDSystem_dtor_body
                    [ArrPhSta; ArrEv1; ArrEv0; ArrL2NScaler; ArrD; ArrM; ArrG; ArrW]
                  = inr []) by reflexivity.
  split; [| split; [| split ] ].
  - eexists. split; [ exact Hctor |]. split; [| split; [| exact Hdtor ] ].
    + repeat (apply NoDup_cons; split; [ intros Hin; repeat (apply elem_of_cons in Hin as [Heq | Hin]; [ discriminate Heq |]); apply elem_of_nil in Hin; exact Hin |]).
      apply NoDup_nil. trivial.
    + intros []; repeat first [ apply list_elem_of_here | apply list_elem_of_further ].
  - rewrite (heap_run_app _ _ _ _ Hctor). exact Hdtor.
  - rewrite (heap_run_app _ _ _ _ Hctor). rewrite (heap_run_app _ _ _ _ Hdtor).
    reflexivity.
  - rewrite (heap_run_app _ _ _ _ Hctor). reflexivity.
Qed.

(* ===================================================================== *)
(** * Grids: where the two classifications part *)
(* ===================================================================== *)

(** X6: the override of [VelGrid] and the inherited [Grid::is3D] give a
    different answer on the same dimensions exactly when [numx = 2]; a
    3-D velocity grid is 3-D for the base class too; and neither looks
    at anything but [numx]: [numy], [numz] and the [gridType] member do
    not enter. *)
Theorem is3D_disagree_iff :
  (forall i : NLL.Info,
      NLL.is3D (NLL.mkGrid NLL.CVelGrid i) <> NLL.is3D (NLL.mkGrid NLL.CTimeGrid i)
      <-> NLL.numx i = 2)
  /\ (forall i : NLL.Info,
        NLL.is3D (NLL.mkGrid NLL.CVelGrid i) = true ->
        NLL.is3D (NLL.mkGrid NLL.CTimeGrid i) = true
        /\ NLL.is3D (NLL.mkGrid NLL.CAngleGrid i) = true
        /\ NLL.is3D (NLL.mkGrid NLL.CGrid i) = true)
  /\ (forall (k : NLL.GridClass) (i j : NLL.Info),
        NLL.numx i = NLL.numx j ->
        NLL.is3D (NLL.mkGrid k i) = NLL.is3D (NLL.mkGrid k j)).
Proof.
  split; [| split ].
  - intros i. unfold NLL.is3D, NLL.VelGrid_is3D, NLL.Grid_is3D.
    cbn [NLL.class_of NLL.info].
    destruct (Z.ltb_spec 2 (NLL.numx i)), (Z.ltb_spec 1 (NLL.numx i));
      split; intros Hd; try lia; try congruence.
  - intros i. unfold NLL.is3D, NLL.VelGrid_is3D, NLL.Grid_is3D.
    cbn [NLL.class_of NLL.info]. intros Hv. apply Z.ltb_lt in Hv.
    assert (Hg : (1 <? NLL.numx i) = true) by (apply Z.ltb_lt; lia).
    rewrite Hg. repeat split.
  - intros k i j Hij. unfold NLL.is3D, NLL.VelGrid_is3D, NLL.Grid_is3D.
    cbn [NLL.class_of NLL.info]. rewrite Hij. reflexivity.
Qed.

(* ===================================================================== *)
(** * Take-off angles: the bit-fields are wide enough *)
(* ===================================================================== *)

Lemma bitfield_small (w v : Z) :
  0 <= v < 2 ^ w -> AngleGrid.bitfield w v = v.
Proof. intros Hv. unfold AngleGrid.bitfield. apply Z.mod_small, Hv. Qed.

(** X7: the three bit-fields of [TakeOffAngles] are wide enough for the
    ranges their comments give: angles with quality at most 10, dip at
    most 1800 and azimuth at most 3600 tenths of a degree are held
    exactly as assigned; the three widths fill 32 bits; and the next
    quality, dip or azimuth beyond what a field can hold is not kept
    (16, 4096 and 65536 all read back as 0). *)
Theorem TakeOffAngles_fields_fit (q dp az : Z) :
  AngleGrid.documented (AngleGrid.mkTakeOffAngles q dp az) ->
  AngleGrid.assign q dp az = AngleGrid.mkTakeOffAngles q dp az
  /\ AngleGrid.QUALITY_WIDTH + AngleGrid.DIP_WIDTH + AngleGrid.AZIMUTH_WIDTH = 32
  /\ AngleGrid.assign 16 4096 65536 = AngleGrid.mkTakeOffAngles 0 0 0
  /\ AngleGrid.quality (AngleGrid.assign AngleGrid.QUALITY_CUTOFF dp az)
     = AngleGrid.QUALITY_CUTOFF.
Proof.
  unfold AngleGrid.documented. cbn [AngleGrid.quality AngleGrid.dip AngleGrid.azimuth].
  intros (Hq & Hd & Ha). split; [| split; [| split ] ]; try reflexivity.
  unfold AngleGrid.assign.
  rewrite !bitfield_small; [ reflexivity | | | ];
    unfold AngleGrid.AZIMUTH_WIDTH, AngleGrid.DIP_WIDTH, AngleGrid.QUALITY_WIDTH;
    [ change (2 ^ 16) with 65536 | change (2 ^ 12) with 4096 | change (2 ^ 4) with 16 ];
    lia.
Qed.

Lemma TakeOffAngles_fields_fit_witness :
  AngleGrid.assign 10 1800 3600 = AngleGrid.mkTakeOffAngles 10 1800 3600
  /\ AngleGrid.QUALITY_WIDTH + AngleGrid.DIP_WIDTH + AngleGrid.AZIMUTH_WIDTH = 32
  /\ AngleGrid.assign 16 4096 65536 = AngleGrid.mkTakeOffAngles 0 0 0
  /\ AngleGrid.quality (AngleGrid.assign AngleGrid.QUALITY_CUTOFF 1800 3600)
     = AngleGrid.QUALITY_CUTOFF.
Proof.
  apply (TakeOffAngles_fields_fit 10 1800 3600).
  unfold AngleGrid.documented. cbn. lia.
Defined.

(* ===================================================================== *)
(** * reset, again *)
(* ===================================================================== *)

(** X8: [reset] on any solver whatever, reachable or not: resetting
    twice is resetting once, the type string is kept, and the result
    depends on the solver through its type string alone. *)
Theorem reset_idempotent :
  (forall (c1 c2 : Centroid) (s : Solver), reset c2 (reset c1 s) = reset c2 s)
  /\ (forall (c : Centroid) (s : Solver), _type (reset c s) = _type s)
  /\ (forall (c : Centroid) (s s' : Solver),
        reset c s = reset c s' <-> _type s = _type s')
  /\ (forall (c : Centroid) (s : Solver), cleared (reset c s)).
Proof.
  split; [| split; [| split ] ].
  - intros c1 c2 s. reflexivity.
  - intros c s. reflexivity.
  - intros c s s'. split.
    + intros Heq. apply (f_equal _type) in Heq. exact Heq.
    + intros Heq. unfold reset. rewrite Heq. reflexivity.
  - intros c s. apply Solver_new_cleared.
Qed.

(* ===================================================================== *)
(** * HypoDD: the inline setters and getters *)
(* ===================================================================== *)

Lemma last_arg_cons (arg : SetterCall -> option bool) (c : SetterCall)
    (calls : list SetterCall) (dflt : bool) :
  last_arg arg (c :: calls) dflt = last_arg arg calls (default dflt (arg c)).
Proof.
  unfold last_arg. cbn [omap list_omap].
  destruct (arg c) as [b |]; cbn [default from_option]; [| reflexivity ].
  rewrite last_cons. destruct (last (omap arg calls)); reflexivity.
Qed.

Section HypoDDFacts.

Context {Ext : Type}.

(** The object a run of setter calls leaves: every member as it was,
    but for the three flags, which hold the argument of their last
    call. *)
Lemma setters_run_normal_form (calls : list SetterCall) (h : HypoDD Ext) :
  setters_run calls h
  = mkHypoDD (last_arg arg_workingDirCleanup calls (_workingDirCleanup h))
             (_workingDir h) (_cacheDir h) (_tmpCacheDir h) (_wfDebugDir h)
             (_cfg h) (_useCatalogWaveformDiskCache h)
             (last_arg arg_waveformCacheAll calls (_waveformCacheAll h))
             (_waveformDebug h)
             (last_arg arg_useArtificialPhases calls (_useArtificialPhases h))
             (externals h) (_unloadableWfs h) (_counters h).
Proof.
  revert h. unfold setters_run.
  induction calls as [| c calls IH]; intros h.
  - destruct h. reflexivity.
  - cbn [fold_left]. rewrite IH, !last_arg_cons.
    destruct c; reflexivity.
Qed.

(** X9: after any sequence of calls of the three inline setters, each
    getter returns the argument of the last call of its own setter, or
    what it returned before the sequence when there is none; calls of
    the two other setters in between do not matter. *)
Theorem setters_last_call_wins (calls : list SetterCall) (h : HypoDD Ext) :
  workingDirCleanup (setters_run calls h)
  = last_arg arg_workingDirCleanup calls (workingDirCleanup h)
  /\ waveformCacheAll (setters_run calls h)
     = last_arg arg_waveformCacheAll calls (waveformCacheAll h)
  /\ useArtificialPhases (setters_run calls h)
     = last_arg arg_useArtificialPhases calls (useArtificialPhases h).
Proof.
  rewrite setters_run_normal_form. repeat split.
Qed.

(** X10: the three inline setters never touch anything else: after any
    sequence of their calls [useCatalogWaveformDiskCache()] and
    [waveformDebug()] return what they did, and the directories, the
    configuration, the pointers, the unloadable waveforms and the
    counters are the same. *)
Theorem setters_frame (calls : list SetterCall) (h : HypoDD Ext) :
  useCatalogWaveformDiskCache (setters_run calls h) = useCatalogWaveformDiskCache h
  /\ waveformDebug (setters_run calls h) = waveformDebug h
  /\ _workingDir (setters_run calls h) = _workingDir h
  /\ _cacheDir (setters_run calls h) = _cacheDir h
  /\ _tmpCacheDir (setters_run calls h) = _tmpCacheDir h
  /\ _wfDebugDir (setters_run calls h) = _wfDebugDir h
  /\ _cfg (setters_run calls h) = _cfg h
  /\ externals (setters_run calls h) = externals h
  /\ _unloadableWfs (setters_run calls h) = _unloadableWfs h
  /\ _counters (setters_run calls h) = _counters h.
Proof.
  rewrite setters_run_normal_form. repeat split.
Qed.

(** X11: two sequences of setter calls that agree on the last argument
    given to each setter leave the same object, whatever the order and
    the number of the calls; in particular calls of different setters
    commute and a repeated call is the same as one call. *)
Theorem setters_order_irrelevant (calls1 calls2 : list SetterCall) (h : HypoDD Ext) :
  last (omap arg_workingDirCleanup calls1) = last (omap arg_workingDirCleanup calls2) ->
  last (omap arg_waveformCacheAll calls1) = last (omap arg_waveformCacheAll calls2) ->
  last (omap arg_useArtificialPhases calls1)
  = last (omap arg_useArtificialPhases calls2) ->
  setters_run calls1 h = setters_run calls2 h.
Proof.
  intros H1 H2 H3. rewrite !setters_run_normal_form.
  unfold last_arg. rewrite H1, H2, H3. reflexivity.
Qed.

End HypoDDFacts.

Lemma setters_order_irrelevant_witness :
  setters_run [SetWaveformCacheAll true; SetWorkingDirCleanup true;
               SetWorkingDirCleanup false] hypodd_example
  = setters_run [SetWorkingDirCleanup false; SetWaveformCacheAll false;
                 SetWaveformCacheAll true] hypodd_example.
Proof.
  apply (setters_order_irrelevant
           [SetWaveformCacheAll true; SetWorkingDirCleanup true;
            SetWorkingDirCleanup false]
           [SetWorkingDirCleanup false; SetWaveformCacheAll false;
            SetWaveformCacheAll true] hypodd_example);
    reflexivity.
Defined.

(* ===================================================================== *)
(** * Default configuration and default clustering options *)
(* ===================================================================== *)

(** X12: in the default configuration no phase name is valid both as a
    P and as an S phase, neither list names a phase twice, every name
    of the first list begins with [P] and every name of the second with
    [S], and the cross-correlation settings have one entry for each of
    the two phase types. *)
Theorem Config_default_phases :
  validPphases Config_default ## validSphases Config_default
  /\ NoDup (validPphases Config_default)
  /\ NoDup (validSphases Config_default)
  /\ Forall (fun n => String.prefix "P" n = true) (validPphases Config_default)
  /\ Forall (fun n => String.prefix "S" n = true) (validSphases Config_default)
  /\ (fst <$> xcorr Config_default) = [PhaseP; PhaseS].
Proof.
  split; [| split; [| split; [| split; [| split ] ] ] ].
  - intros n Hp Hs. cbn in Hp, Hs.
    repeat (apply elem_of_cons in Hp as [-> | Hp];
            [ repeat (apply elem_of_cons in Hs as [Hs | Hs]; [ discriminate Hs |]);
              apply elem_of_nil in Hs; exact Hs |]).
    apply elem_of_nil in Hp. exact Hp.
  - cbn. repeat (apply NoDup_cons; split;
                 [ intros Hin; repeat (apply elem_of_cons in Hin as [Heq | Hin];
                                       [ discriminate Heq |]);
                   apply elem_of_nil in Hin; exact Hin |]).
    apply NoDup_nil. trivial.
  - cbn. repeat (apply NoDup_cons; split;
                 [ intros Hin; repeat (apply elem_of_cons in Hin as [Heq | Hin];
                                       [ discriminate Heq |]);
                   apply elem_of_nil in Hin; exact Hin |]).
    apply NoDup_nil. trivial.
  - cbn. repeat constructor.
  - cbn. repeat constructor.
  - reflexivity.
Qed.

(** X13: the default clustering options carry [-1] in both
    cross-correlation distance limits and in the maximum
    epicentre-station distance, the very values [buildXCorrCache] takes
    for the two limits when a call leaves them out; the required minima
    of neighbours and of differential times are 1 and exceed the default
    maxima, which are 0. *)
Theorem ClusteringOptions_default_limits :
  buildXCorrCache_limits None None
  = (xcorrMaxEvStaDist ClusteringOptions_default,
     xcorrMaxInterEvDist ClusteringOptions_default)
  /\ maxESdist ClusteringOptions_default = xcorrMaxEvStaDist ClusteringOptions_default
  /\ (maxESdist ClusteringOptions_default < minESdist ClusteringOptions_default)%R
  /\ maxNumNeigh ClusteringOptions_default < minNumNeigh ClusteringOptions_default
  /\ maxDTperEvt ClusteringOptions_default < minDTperEvt ClusteringOptions_default
  /\ (forall a b : R, buildXCorrCache_limits (Some a) (Some b) = (a, b))
  /\ (forall a : R,
        buildXCorrCache_limits (Some a) None
        = (a, xcorrMaxInterEvDist ClusteringOptions_default)).
Proof.
  repeat split; cbn; try reflexivity; try lia; lra.
Qed.
